(** * Flux qubit in the charge basis: a shallow embedding of
      [scqubits/core/flux_qubit.py] (class [FluxQubit]).

    Scalars are modelled exactly: a Python/numpy float is a real number of
    the Stdlib ([R]), a numpy complex is a pair of reals ([C] below).  The
    floating-point rounding of numpy and LAPACK is not modelled.

    A numpy array is a [mat]: its shape and its entry function.  Failures
    raised along the way (a Python [ZeroDivisionError] in [1. / (2 * EC)],
    numpy's [LinAlgError] on a singular matrix, scipy's [ValueError] on an
    invalid eigenvalue range) are threaded through an error monad [res]. *)

From Stdlib Require Import Reals Lra Lia Arith ZArith List Bool.
From Stdlib Require Import Sorting.Permutation Sorting.Sorted.
Import ListNotations.

Open Scope R_scope.

(** ** Python exceptions and the error monad *)

Inductive pyerr : Type :=
| ZeroDivisionError
| LinAlgError
| ValueError.

Inductive res (A : Type) : Type :=
| Ok (a : A)
| Err (e : pyerr).
Arguments Ok {A} a.
Arguments Err {A} e.

Definition bind {A B : Type} (m : res A) (k : A -> res B) : res B :=
  match m with
  | Ok a => k a
  | Err e => Err e
  end.

Notation "'let*' x ':=' m 'in' k" := (bind m (fun x => k))
  (at level 200, x name, m at level 100, k at level 200).

(** ** Complex scalars *)

Record C : Type := mkC { re : R; im : R }.

Definition C0 : C := mkC 0 0.
Definition C1 : C := mkC 1 0.
Definition RtoC (r : R) : C := mkC r 0.
Definition Ci : C := mkC 0 1.
Definition Cadd (a b : C) : C := mkC (re a + re b) (im a + im b).
Definition Copp (a : C) : C := mkC (- re a) (- im a).
Definition Csub (a b : C) : C := mkC (re a - re b) (im a - im b).
Definition Cmul (a b : C) : C :=
  mkC (re a * re b - im a * im b) (re a * im b + im a * re b).
Definition Cconj (a : C) : C := mkC (re a) (- im a).
(** [np.exp] of a complex argument. *)
Definition Cexp (z : C) : C :=
  mkC (exp (re z) * cos (im z)) (exp (re z) * sin (im z)).

(** numpy's complex division [a / b]. *)
Definition Cdiv (a b : C) : C :=
  let den := re b * re b + im b * im b in
  mkC ((re a * re b + im a * im b) / den) ((im a * re b - re a * im b) / den).

(** ** numpy arrays *)

Record mat : Type := Mat {
  mrows : nat;
  mcols : nat;
  ment : nat -> nat -> C
}.

(** Two arrays are equal ([np.array_equal]): same shape, same entries. *)
Definition meq (A B : mat) : Prop :=
  mrows A = mrows B /\ mcols A = mcols B /\
  forall i j, (i < mrows A)%nat -> (j < mcols A)%nat -> ment A i j = ment B i j.

Fixpoint csum (n : nat) (f : nat -> C) : C :=
  match n with
  | O => C0
  | S n' => Cadd (csum n' f) (f n')
  end.

(** [A + B], [A - B] and [c * A] on arrays of one shape. *)
Definition madd (A B : mat) : mat :=
  Mat (mrows A) (mcols A) (fun i j => Cadd (ment A i j) (ment B i j)).
Definition msub (A B : mat) : mat :=
  Mat (mrows A) (mcols A) (fun i j => Csub (ment A i j) (ment B i j)).
Definition mscale (c : C) (A : mat) : mat :=
  Mat (mrows A) (mcols A) (fun i j => Cmul c (ment A i j)).

(** [A.T] and [A.conj().T]. *)
Definition transpose (A : mat) : mat :=
  Mat (mcols A) (mrows A) (fun i j => ment A j i).
Definition dagger (A : mat) : mat :=
  Mat (mcols A) (mrows A) (fun i j => Cconj (ment A j i)).

(** [A.conj()]. *)
Definition mconj (A : mat) : mat :=
  Mat (mrows A) (mcols A) (fun i j => Cconj (ment A i j)).

(** [np.matmul A B]. *)
Definition matmul (A B : mat) : mat :=
  Mat (mrows A) (mcols B)
      (fun i j => csum (mcols A) (fun k => Cmul (ment A i k) (ment B k j))).

(** [np.kron A B]: the first factor is the slow index. *)
Definition kron (A B : mat) : mat :=
  Mat (mrows A * mrows B) (mcols A * mcols B)
      (fun i j => Cmul (ment A (i / mrows B) (j / mcols B))
                       (ment B (i mod mrows B) (j mod mcols B))).

(** [np.eye dim]. *)
Definition eye (dim : nat) : mat :=
  Mat dim dim (fun i j => if Nat.eqb i j then C1 else C0).

(** [np.diag v k] for a 1-d array [v] and [k >= 0]: a square array of side
    [len v + k] with [v] on the [k]-th super-diagonal. *)
Definition np_diag (v : list C) (k : nat) : mat :=
  Mat (length v + k) (length v + k)
      (fun i j => if Nat.eqb j (i + k) then nth i v C0 else C0).

(** [np.arange a b] for integers. *)
Definition arange (a b : Z) : list Z :=
  map (fun k => (a + Z.of_nat k)%Z) (seq 0 (Z.to_nat (b - a))).

(** [np.ones m]. *)
Definition ones (m : nat) : list C := repeat C1 m.

(** [np.reshape v (r, c)] in numpy's default row-major order. *)
Definition reshape (v : nat -> C) (r c : nat) : mat :=
  Mat r c (fun i j => v (i * c + j)%nat).

(** [A[:, k]]. *)
Definition column (A : mat) (k : nat) : nat -> C := fun i => ment A i k.

(** 2x2 real arrays ([np.zeros((2, 2))] and item assignment). *)
Definition rmat2 : Type := nat -> nat -> R.
Definition zeros2 : rmat2 := fun _ _ => 0.
Definition set2 (M : rmat2) (i j : nat) (v : R) : rmat2 :=
  fun a b => if Nat.eqb a i && Nat.eqb b j then v else M a b.

(** [np.linalg.inv] on a 2x2 array: raises [LinAlgError] on a singular
    matrix, returns the inverse otherwise. *)
Definition inv2 (M : rmat2) : res rmat2 :=
  let det := M 0%nat 0%nat * M 1%nat 1%nat - M 0%nat 1%nat * M 1%nat 0%nat in
  if Req_EM_T det 0 then Err LinAlgError
  else Ok (fun i j =>
             match i, j with
             | O, O => M 1%nat 1%nat / det
             | O, S O => - M 0%nat 1%nat / det
             | S O, O => - M 1%nat 0%nat / det
             | S O, S O => M 0%nat 0%nat / det
             | _, _ => 0
             end).

(** Python's float division [x / y]. *)
Definition pydiv (x y : R) : res R :=
  if Req_EM_T y 0 then Err ZeroDivisionError else Ok (x / y).

(** ** The class [FluxQubit] *)

(** The watched attributes of a [FluxQubit] instance ([truncated_dim] is
    not used by the methods modelled here).  [ncut] is a non-negative
    Python int. *)
Record FluxQubit : Type := mkFluxQubit {
  EJ1 : R; EJ2 : R; EJ3 : R;
  ECJ1 : R; ECJ2 : R; ECJ3 : R;
  ECg1 : R; ECg2 : R;
  ng1 : R; ng2 : R;
  flux : R;
  ncut : nat
}.

Definition with_flux (self : FluxQubit) (f : R) : FluxQubit :=
  mkFluxQubit (EJ1 self) (EJ2 self) (EJ3 self) (ECJ1 self) (ECJ2 self)
              (ECJ3 self) (ECg1 self) (ECg2 self) (ng1 self) (ng2 self)
              f (ncut self).

Definition EC_matrix (self : FluxQubit) : res rmat2 :=
  let Cmat := zeros2 in
  let* CJ1 := pydiv 1 (2 * ECJ1 self) in
  let* CJ2 := pydiv 1 (2 * ECJ2 self) in
  let* CJ3 := pydiv 1 (2 * ECJ3 self) in
  let* Cg1 := pydiv 1 (2 * ECg1 self) in
  let* Cg2 := pydiv 1 (2 * ECg2 self) in
  let Cmat := set2 Cmat 0 0 (CJ1 + CJ3 + Cg1) in
  let Cmat := set2 Cmat 1 1 (CJ2 + CJ3 + Cg2) in
  let Cmat := set2 Cmat 0 1 (- CJ3) in
  let Cmat := set2 Cmat 1 0 (- CJ3) in
  let* inv := inv2 Cmat in
  Ok (fun i j => inv i j / 2).

Definition hilbertdim (self : FluxQubit) : nat :=
  ((2 * ncut self + 1) ^ 2)%nat.

Definition _n_operator (self : FluxQubit) : mat :=
  let diag_elements :=
    map (fun z => RtoC (IZR z))
        (arange (- Z.of_nat (ncut self)) (Z.of_nat (ncut self) + 1)) in
  np_diag diag_elements 0.

Definition _exp_i_phi_operator (self : FluxQubit) : mat :=
  let dim := (2 * ncut self + 1)%nat in
  let off_diag_elements := ones (dim - 1) in
  np_diag off_diag_elements 1.

Definition _identity (self : FluxQubit) : mat :=
  let dim := (2 * ncut self + 1)%nat in
  eye dim.

Definition kineticmat (self : FluxQubit) : res mat :=
  let* ECmat := EC_matrix self in
  let X1 := msub (_n_operator self) (mscale (RtoC (ng1 self)) (_identity self)) in
  let X2 := msub (_n_operator self) (mscale (RtoC (ng2 self)) (_identity self)) in
  let kinetic_mat :=
    mscale (RtoC (4 * ECmat 0%nat 0%nat)) (kron (matmul X1 X1) (_identity self)) in
  let kinetic_mat :=
    madd kinetic_mat
         (mscale (RtoC (4 * ECmat 1%nat 1%nat)) (kron (_identity self) (matmul X2 X2))) in
  let kinetic_mat :=
    madd kinetic_mat
         (mscale (RtoC (4 * (ECmat 0%nat 1%nat + ECmat 1%nat 0%nat))) (kron X1 X2)) in
  Ok kinetic_mat.

(** [1j * 2 * np.pi * self.flux] and [-1j * 2 * np.pi * self.flux],
    evaluated left to right. *)
Definition phase_arg (self : FluxQubit) : C :=
  Cmul (Cmul (Cmul Ci (RtoC 2)) (RtoC PI)) (RtoC (flux self)).
Definition phase_arg_neg (self : FluxQubit) : C :=
  Cmul (Cmul (Cmul (Copp Ci) (RtoC 2)) (RtoC PI)) (RtoC (flux self)).

Definition potentialmat (self : FluxQubit) : mat :=
  let E := _exp_i_phi_operator self in
  let I := _identity self in
  let potential_mat :=
    mscale (RtoC (-0.5 * EJ1 self)) (kron (madd E (transpose E)) I) in
  let potential_mat :=
    madd potential_mat
         (mscale (RtoC (-0.5 * EJ2 self)) (kron I (madd E (transpose E)))) in
  let potential_mat :=
    madd potential_mat
         (mscale (RtoC (-0.5 * EJ3 self))
                 (mscale (Cexp (phase_arg self)) (kron E (transpose E)))) in
  let potential_mat :=
    madd potential_mat
         (mscale (RtoC (-0.5 * EJ3 self))
                 (mscale (Cexp (phase_arg_neg self)) (kron (transpose E) E))) in
  potential_mat.

Definition hamiltonian (self : FluxQubit) : res mat :=
  let* K := kineticmat self in
  Ok (madd K (potentialmat self)).

Definition n_1_operator (self : FluxQubit) : mat :=
  kron (_n_operator self) (_identity self).

Definition n_2_operator (self : FluxQubit) : mat :=
  kron (_identity self) (_n_operator self).

(** The charge-basis amplitudes of [wavefunction]:
    [np.reshape(evecs[:, which], (dim, dim))]. *)
Definition state_amplitudes (self : FluxQubit) (evecs : mat) (which : nat) : mat :=
  let dim := (2 * ncut self + 1)%nat in
  reshape (column evecs which) dim dim.

(** [potential(phi1, phi2)] at one point. *)
Definition potential (self : FluxQubit) (phi1 phi2 : R) : R :=
  - EJ1 self * cos phi1 - EJ2 self * cos phi2
  - EJ3 self * cos (2 * PI * flux self + phi1 - phi2).

Definition exp_i_phi_1_operator (self : FluxQubit) : mat :=
  kron (_exp_i_phi_operator self) (_identity self).

Definition exp_i_phi_2_operator (self : FluxQubit) : mat :=
  kron (_identity self) (_exp_i_phi_operator self).

(** [cos_op += cos_op.T] adds the transpose taken before the update
    (numpy copies an overlapping operand of an in-place ufunc). *)
Definition cos_phi_1_operator (self : FluxQubit) : mat :=
  let cos_op := mscale (RtoC 0.5) (exp_i_phi_1_operator self) in
  madd cos_op (transpose cos_op).

Definition cos_phi_2_operator (self : FluxQubit) : mat :=
  let cos_op := mscale (RtoC 0.5) (exp_i_phi_2_operator self) in
  madd cos_op (transpose cos_op).

(** [-1j * 0.5 * A] is [((-1j) * 0.5) * A]. *)
Definition sin_phi_1_operator (self : FluxQubit) : mat :=
  let sin_op := mscale (Cmul (Copp Ci) (RtoC 0.5)) (exp_i_phi_1_operator self) in
  madd sin_op (transpose (mconj sin_op)).

Definition sin_phi_2_operator (self : FluxQubit) : mat :=
  let sin_op := mscale (Cmul (Copp Ci) (RtoC 0.5)) (exp_i_phi_2_operator self) in
  madd sin_op (transpose (mconj sin_op)).

(** The amplitudes computed by [wavefunction] (lines [dim = ...] to the
    second [np.matmul]) on the grid points [phi_vec] returned by
    [phi_grid.make_linspace()]; [standardize_phases] and the grid object
    are not part of this file. *)
Definition wavefunc_amplitudes (self : FluxQubit) (evecs : mat) (which : nat)
    (phi_vec : list R) : mat :=
  let st := state_amplitudes self evecs which in
  let n_vec := arange (- Z.of_nat (ncut self)) (Z.of_nat (ncut self) + 1) in
  let a_1_phi :=
    Mat (length phi_vec) (length n_vec)
        (fun p k => Cdiv (Cexp (Cmul Ci (RtoC (nth p phi_vec 0 * IZR (nth k n_vec 0%Z)))))
                         (RtoC (Rpower (2 * PI) 0.5))) in
  let a_2_phi := transpose a_1_phi in
  let wavefunc_amplitudes := matmul a_1_phi st in
  matmul wavefunc_amplitudes a_2_phi.

(** ** Spectral solver *)

(** [np.sort] on a 1-d float array (the sorted rearrangement, written as
    an insertion sort). *)
Fixpoint insert_sorted (x : R) (l : list R) : list R :=
  match l with
  | [] => [x]
  | y :: l' => if Rle_dec x y then x :: l else y :: insert_sorted x l'
  end.

Definition np_sort (l : list R) : list R := fold_right insert_sorted [] l.

(** Modelled from the spec: [order_eigensystem] of
    [scqubits.utils.spectrum_utils] (not part of this file).  The spec
    describes it as the canonical ordering step of the eigensystem: it
    rearranges the (eigenvalue, eigenvector) pairs so that the eigenvalues
    are ascending, keeping each eigenvector paired with its eigenvalue. *)
Fixpoint insert_pair {V : Type} (x : R * V) (l : list (R * V)) : list (R * V) :=
  match l with
  | [] => [x]
  | y :: l' => if Rle_dec (fst x) (fst y) then x :: l else y :: insert_pair x l'
  end.

Definition order_eigensystem {V : Type} (evals : list R) (evecs : list V)
  : list R * list V :=
  let pairs := fold_right insert_pair [] (combine evals evecs) in
  (map fst pairs, map snd pairs).

Section Spectral.

(** The LAPACK driver behind [scipy.linalg.eigh(H, eigvals=(lo, hi),
    eigvals_only=b)] on a valid index range: the eigenvalues with indices
    [lo..hi] of the Hermitian matrix [H] and, when [b] is false, the
    eigenvector columns. *)
Variable eigh_solve : mat -> nat -> nat -> bool -> list R * list (nat -> C).

(** [scipy.linalg.eigh] with [eigvals=(lo, hi)]: scipy requires
    [0 <= lo <= hi <= M-1] and raises otherwise. *)
Definition eigh (H : mat) (lo hi : Z) (eigvals_only : bool)
  : res (list R * list (nat -> C)) :=
  if (0 <=? lo)%Z && (lo <=? hi)%Z && (hi <? Z.of_nat (mrows H))%Z
  then Ok (eigh_solve H (Z.to_nat lo) (Z.to_nat hi) eigvals_only)
  else Err ValueError.

Definition _evals_calc (self : FluxQubit) (evals_count : Z) : res (list R) :=
  let* hamiltonian_mat := hamiltonian self in
  let* evals := eigh hamiltonian_mat 0 (evals_count - 1) true in
  Ok (np_sort (fst evals)).

Definition _esys_calc (self : FluxQubit) (evals_count : Z)
  : res (list R * list (nat -> C)) :=
  let* hamiltonian_mat := hamiltonian self in
  let* r := eigh hamiltonian_mat 0 (evals_count - 1) false in
  Ok (order_eigensystem (fst r) (snd r)).

(** The two hooks in state-passing form: they read the instance and
    assign none of its attributes. *)
Definition _evals_calc_st (self : FluxQubit) (evals_count : Z)
  : res (list R) * FluxQubit :=
  (_evals_calc self evals_count, self).

Definition _esys_calc_st (self : FluxQubit) (evals_count : Z)
  : res (list R * list (nat -> C)) * FluxQubit :=
  (_esys_calc self evals_count, self).

End Spectral.

(** ** The composite forms named by the spec *)

(** [4 EC00 (N1 - ng1 I)^2 + 4 EC11 (N2 - ng2 I)^2
      + 4 (EC01 + EC10) (N1 - ng1 I)(N2 - ng2 I)] with the composite number
    operators [N1 = n (x) I], [N2 = I (x) n] and the [d^2]-dimensional
    identity [I]. *)
Definition kinetic_spec (self : FluxQubit) (EC : rmat2) : mat :=
  let d := (2 * ncut self + 1)%nat in
  let N1 := kron (_n_operator self) (_identity self) in
  let N2 := kron (_identity self) (_n_operator self) in
  let I := eye (d * d) in
  let A := msub N1 (mscale (RtoC (ng1 self)) I) in
  let B := msub N2 (mscale (RtoC (ng2 self)) I) in
  madd (madd (mscale (RtoC (4 * EC 0%nat 0%nat)) (matmul A A))
             (mscale (RtoC (4 * EC 1%nat 1%nat)) (matmul B B)))
       (mscale (RtoC (4 * (EC 0%nat 1%nat + EC 1%nat 0%nat))) (matmul A B)).

(** [-1/2 EJ1 (E1 + E1^dagger) - 1/2 EJ2 (E2 + E2^dagger)
      - 1/2 EJ3 exp(i 2 pi flux) (E (x) E^T) - 1/2 EJ3 exp(-i 2 pi flux) (E^T (x) E)]
    with [E1 = E (x) I] and [E2 = I (x) E]. *)
Definition potential_spec (self : FluxQubit) : mat :=
  let E := _exp_i_phi_operator self in
  let I := _identity self in
  let E1 := kron E I in
  let E2 := kron I E in
  let th := 2 * PI * flux self in
  msub (msub (msub (mscale (RtoC (- (EJ1 self / 2))) (madd E1 (dagger E1)))
                   (mscale (RtoC (EJ2 self / 2)) (madd E2 (dagger E2))))
             (mscale (RtoC (EJ3 self / 2))
                     (mscale (Cexp (mkC 0 th)) (kron E (transpose E)))))
       (mscale (RtoC (EJ3 self / 2))
               (mscale (Cexp (mkC 0 (- th))) (kron (transpose E) E))).

(** The capacitance matrix as the spec describes it. *)
Definition Cmat_spec (self : FluxQubit) : rmat2 :=
  fun i j =>
    match i, j with
    | O, O => 1 / (2 * ECJ1 self) + 1 / (2 * ECJ3 self) + 1 / (2 * ECg1 self)
    | S O, S O => 1 / (2 * ECJ2 self) + 1 / (2 * ECJ3 self) + 1 / (2 * ECg2 self)
    | O, S O | S O, O => - (1 / (2 * ECJ3 self))
    | _, _ => 0
    end.

Definition det2 (M : rmat2) : R :=
  M 0%nat 0%nat * M 1%nat 1%nat - M 0%nat 1%nat * M 1%nat 0%nat.

(** 2x2 matrix product. *)
Definition rmul2 (A B : rmat2) : rmat2 :=
  fun i j => A i 0%nat * B 0%nat j + A i 1%nat * B 1%nat j.

(** [A v] for a 1-d array [v], and the basis vector with a one at [k]. *)
Definition matvec (A : mat) (v : nat -> C) : nat -> C :=
  fun i => csum (mcols A) (fun k => Cmul (ment A i k) (v k)).

Definition basis (k : nat) : nat -> C := fun m => if Nat.eqb m k then C1 else C0.

(** ** Auxiliary definitions for the statements *)

Definition isdiag (A : mat) (n : nat) (f : nat -> C) : Prop :=
  mrows A = n /\ mcols A = n /\
  forall i j, (i < n)%nat -> (j < n)%nat ->
    ment A i j = if Nat.eqb i j then f i else C0.

Definition nval (self : FluxQubit) (i : nat) : C :=
  RtoC (IZR (Z.of_nat i - Z.of_nat (ncut self))).

(** The raising operator: ones on the first super-diagonal. *)
Definition eval (self : FluxQubit) (i j : nat) : R :=
  if Nat.eqb j (S i) && Nat.ltb i (2 * ncut self) then 1 else 0.

Definition nonzero_EC (self : FluxQubit) : Prop :=
  ECJ1 self <> 0 /\ ECJ2 self <> 0 /\ ECJ3 self <> 0 /\ ECg1 self <> 0 /\ ECg2 self <> 0.

Definition positive_EC (self : FluxQubit) : Prop :=
  0 < ECJ1 self /\ 0 < ECJ2 self /\ 0 < ECJ3 self /\ 0 < ECg1 self /\ 0 < ECg2 self.

Definition half_identity2 (M : rmat2) : Prop :=
  M 0%nat 0%nat = 1 / 2 /\ M 0%nat 1%nat = 0 /\ M 1%nat 0%nat = 0 /\ M 1%nat 1%nat = 1 / 2.

(** A parameter set with nonzero charging energies whose capacitance
    matrix is singular ([ECJ3 = -1], the other charging energies [1]). *)
Definition singular_qubit : FluxQubit :=
  mkFluxQubit 1 1 1 1 1 (-1) 1 1 0 0 0 0.

(** A parameter set of the usual, positive kind. *)
Definition sample_qubit : FluxQubit :=
  mkFluxQubit 1 1 1 1 1 1 50 50 0 0 (1 / 2) 1.

(** A parameter set of the positive kind with the one-state truncation
    [ncut = 0]. *)
Definition zero_cut_qubit : FluxQubit :=
  mkFluxQubit 1 1 1 1 1 1 50 50 0 0 (1 / 2) 0.

(** A stand-in for the LAPACK driver, used to instantiate the solver in
    witnesses: it reports [hi - lo + 1] zero eigenvalues. *)
Definition zero_solver (H : mat) (lo hi : nat) (b : bool) : list R * list (nat -> C) :=
  (repeat 0 (S hi - lo), repeat (fun _ => C0) (S hi - lo)).

(** [A] moves index [i] to [i + s] where [ok i] holds: ones at
    [(i, i + s)] for [ok i], zeros elsewhere. *)
Definition isshift (A : mat) (n s : nat) (ok : nat -> bool) : Prop :=
  mrows A = n /\ mcols A = n /\ (forall i, (i < n)%nat -> ok i = true -> (i + s < n)%nat) /\
  forall i j, (i < n)%nat -> (j < n)%nat ->
    ment A i j = if Nat.eqb j (i + s) && ok i then C1 else C0.

(** Marks a boolean test as [1] or [0]. *)
Definition b2R (b : bool) : R := if b then 1 else 0.

(** ** Complex arithmetic *)

Lemma C_ext : forall a b : C, re a = re b -> im a = im b -> a = b.
Proof. intros [a1 a2] [b1 b2]; simpl; intros -> ->; reflexivity. Qed.

Lemma C_ring_theory : ring_theory C0 C1 Cadd Cmul Csub Copp (@eq C).
Proof.
  constructor; intros;
    apply C_ext; unfold Cadd, Cmul, Csub, Copp, C0, C1; simpl; ring.
Qed.

Add Ring C_ring : C_ring_theory.

(** Closes an equation between complex numbers componentwise. *)
Ltac Csolve :=
  apply C_ext; unfold Cadd, Cmul, Csub, Copp, Cconj, RtoC, C0, C1, Ci;
  simpl; ring.

(** ** Finite sums *)

Lemma csum_ext : forall n f g,
  (forall k, (k < n)%nat -> f k = g k) -> csum n f = csum n g.
Proof.
  induction n as [|n IH]; intros f g H; simpl; [reflexivity|].
  rewrite (IH f g) by (intros; apply H; lia). rewrite (H n) by lia. reflexivity.
Qed.

Lemma csum_zero : forall n f, (forall k, (k < n)%nat -> f k = C0) -> csum n f = C0.
Proof.
  induction n as [|n IH]; intros f H; simpl; [reflexivity|].
  rewrite IH by (intros; apply H; lia). rewrite (H n) by lia. Csolve.
Qed.

Lemma csum_delta : forall n i h, (i < n)%nat ->
  csum n (fun k => if Nat.eqb i k then h k else C0) = h i.
Proof.
  induction n as [|n IH]; intros i h Hi; [lia|]. simpl.
  destruct (Nat.eqb_spec i n) as [->|Hne].
  - rewrite csum_zero.
    + Csolve.
    + intros k Hk. destruct (Nat.eqb_spec n k); [lia|reflexivity].
  - rewrite IH by lia. Csolve.
Qed.

(** ** Entries and shapes of the array operations *)

Lemma ment_madd : forall A B i j, ment (madd A B) i j = Cadd (ment A i j) (ment B i j).
Proof. reflexivity. Qed.
Lemma ment_msub : forall A B i j, ment (msub A B) i j = Csub (ment A i j) (ment B i j).
Proof. reflexivity. Qed.
Lemma ment_mscale : forall c A i j, ment (mscale c A) i j = Cmul c (ment A i j).
Proof. reflexivity. Qed.
Lemma ment_transpose : forall A i j, ment (transpose A) i j = ment A j i.
Proof. reflexivity. Qed.
Lemma ment_dagger : forall A i j, ment (dagger A) i j = Cconj (ment A j i).
Proof. reflexivity. Qed.
Lemma ment_kron : forall A B i j,
  ment (kron A B) i j = Cmul (ment A (i / mrows B)%nat (j / mcols B)%nat)
                             (ment B (i mod mrows B) (j mod mcols B)).
Proof. reflexivity. Qed.
Lemma rows_madd : forall A B, mrows (madd A B) = mrows A. Proof. reflexivity. Qed.
Lemma cols_madd : forall A B, mcols (madd A B) = mcols A. Proof. reflexivity. Qed.
Lemma rows_msub : forall A B, mrows (msub A B) = mrows A. Proof. reflexivity. Qed.
Lemma cols_msub : forall A B, mcols (msub A B) = mcols A. Proof. reflexivity. Qed.
Lemma rows_mscale : forall c A, mrows (mscale c A) = mrows A. Proof. reflexivity. Qed.
Lemma cols_mscale : forall c A, mcols (mscale c A) = mcols A. Proof. reflexivity. Qed.
Lemma rows_transpose : forall A, mrows (transpose A) = mcols A. Proof. reflexivity. Qed.
Lemma cols_transpose : forall A, mcols (transpose A) = mrows A. Proof. reflexivity. Qed.
Lemma rows_dagger : forall A, mrows (dagger A) = mcols A. Proof. reflexivity. Qed.
Lemma cols_dagger : forall A, mcols (dagger A) = mrows A. Proof. reflexivity. Qed.
Lemma rows_kron : forall A B, mrows (kron A B) = (mrows A * mrows B)%nat.
Proof. reflexivity. Qed.
Lemma cols_kron : forall A B, mcols (kron A B) = (mcols A * mcols B)%nat.
Proof. reflexivity. Qed.

Create HintDb mat.

#[local] Hint Rewrite ment_madd ment_msub ment_mscale ment_transpose ment_dagger
  ment_kron rows_madd cols_madd rows_msub cols_msub rows_mscale cols_mscale
  rows_transpose cols_transpose rows_dagger cols_dagger rows_kron cols_kron : mat.

(** ** Diagonal arrays *)

Lemma isdiag_meq : forall A B n f g,
  isdiag A n f -> isdiag B n g -> (forall i, (i < n)%nat -> f i = g i) -> meq A B.
Proof.
  intros A B n f g (HrA & HcA & HA) (HrB & HcB & HB) Hfg.
  split; [congruence|]. split; [congruence|].
  intros i j Hi Hj. rewrite HA, HB by lia.
  destruct (Nat.eqb_spec i j); [apply Hfg; lia|reflexivity].
Qed.

Lemma eye_diag : forall n, isdiag (eye n) n (fun _ => C1).
Proof. intros n. repeat split. Qed.

Lemma madd_diag : forall A B n f g,
  isdiag A n f -> isdiag B n g -> isdiag (madd A B) n (fun i => Cadd (f i) (g i)).
Proof.
  intros A B n f g (HrA & HcA & HA) (HrB & HcB & HB).
  split; [exact HrA|]. split; [exact HcA|].
  intros i j Hi Hj; simpl. rewrite HA, HB by lia.
  destruct (Nat.eqb i j); [reflexivity|Csolve].
Qed.

Lemma msub_diag : forall A B n f g,
  isdiag A n f -> isdiag B n g -> isdiag (msub A B) n (fun i => Csub (f i) (g i)).
Proof.
  intros A B n f g (HrA & HcA & HA) (HrB & HcB & HB).
  split; [exact HrA|]. split; [exact HcA|].
  intros i j Hi Hj; simpl. rewrite HA, HB by lia.
  destruct (Nat.eqb i j); [reflexivity|Csolve].
Qed.

Lemma mscale_diag : forall c A n f,
  isdiag A n f -> isdiag (mscale c A) n (fun i => Cmul c (f i)).
Proof.
  intros c A n f (Hr & Hc & HA).
  split; [exact Hr|]. split; [exact Hc|].
  intros i j Hi Hj; simpl. rewrite HA by lia.
  destruct (Nat.eqb i j); [reflexivity|Csolve].
Qed.

Lemma matmul_diag : forall A B n f g,
  isdiag A n f -> isdiag B n g -> isdiag (matmul A B) n (fun i => Cmul (f i) (g i)).
Proof.
  intros A B n f g (HrA & HcA & HA) (HrB & HcB & HB).
  split; [exact HrA|]. split; [exact HcB|].
  intros i j Hi Hj; simpl. rewrite HcA.
  rewrite (csum_ext n _ (fun k => if Nat.eqb i k
                                  then Cmul (f i) (if Nat.eqb k j then g k else C0)
                                  else C0)).
  - rewrite csum_delta by exact Hi.
    destruct (Nat.eqb i j); [reflexivity|Csolve].
  - intros k Hk. rewrite HA, HB by lia.
    destruct (Nat.eqb_spec i k) as [->|]; [reflexivity|Csolve].
Qed.

Lemma div_mod_eqb : forall m i j, m <> 0%nat ->
  (Nat.eqb (i / m)%nat (j / m)%nat && Nat.eqb (i mod m) (j mod m))%bool = Nat.eqb i j.
Proof.
  intros m i j Hm.
  destruct (Nat.eqb_spec i j) as [->|Hne].
  - rewrite !Nat.eqb_refl. reflexivity.
  - destruct (Nat.eqb_spec (i / m)%nat (j / m)%nat) as [Hq|]; [|reflexivity].
    destruct (Nat.eqb_spec (i mod m) (j mod m)) as [Hr|]; [|reflexivity].
    exfalso. apply Hne.
    rewrite (Nat.div_mod_eq i m), (Nat.div_mod_eq j m). congruence.
Qed.

Lemma kron_diag : forall A B n m f g,
  isdiag A n f -> isdiag B m g ->
  isdiag (kron A B) (n * m) (fun i => Cmul (f (i / m)%nat) (g (i mod m))).
Proof.
  intros A B n m f g (HrA & HcA & HA) (HrB & HcB & HB).
  split; [simpl; congruence|]. split; [simpl; congruence|].
  intros i j Hi Hj; simpl. rewrite HrB, HcB.
  assert (Hm : m <> 0%nat) by (intros ->; lia).
  rewrite HA, HB by (try apply Nat.mod_upper_bound; try apply Nat.Div0.div_lt_upper_bound; lia).
  rewrite <- (div_mod_eqb m i j Hm).
  destruct (Nat.eqb (i / m)%nat (j / m)%nat), (Nat.eqb (i mod m) (j mod m)); simpl;
    try reflexivity; Csolve.
Qed.

(** ** The single-mode operators *)

Lemma length_arange_ncut : forall n : nat,
  length (arange (- Z.of_nat n) (Z.of_nat n + 1)) = (2 * n + 1)%nat.
Proof.
  intros n. unfold arange. rewrite length_map, length_seq.
  replace (Z.of_nat n + 1 - - Z.of_nat n)%Z with (Z.of_nat (2 * n + 1)) by lia.
  apply Nat2Z.id.
Qed.

Lemma nth_arange_ncut : forall n i, (i < 2 * n + 1)%nat ->
  nth i (map (fun z => RtoC (IZR z)) (arange (- Z.of_nat n) (Z.of_nat n + 1))) C0
  = RtoC (IZR (Z.of_nat i - Z.of_nat n)).
Proof.
  intros n i Hi.
  pose proof (length_arange_ncut n) as Hl. unfold arange in *.
  rewrite length_map, length_seq in Hl. rewrite map_map.
  set (f := fun k : nat => RtoC (IZR (- Z.of_nat n + Z.of_nat k)%Z)).
  rewrite (nth_indep _ C0 (f 0%nat)) by (rewrite length_map, length_seq; lia).
  rewrite map_nth, seq_nth by lia. unfold f.
  f_equal. f_equal. lia.
Qed.

Lemma n_operator_diag : forall self,
  isdiag (_n_operator self) (2 * ncut self + 1) (nval self).
Proof.
  intros self. unfold _n_operator, np_diag.
  rewrite length_map, length_arange_ncut, Nat.add_0_r.
  split; [reflexivity|]. split; [reflexivity|].
  intros i j Hi Hj; simpl. rewrite Nat.add_0_r, Nat.eqb_sym.
  destruct (Nat.eqb i j); [apply nth_arange_ncut; exact Hi|reflexivity].
Qed.

Lemma identity_diag : forall self,
  isdiag (_identity self) (2 * ncut self + 1) (fun _ => C1).
Proof. intros self. apply eye_diag. Qed.

(** Derives the diagonal form of an array built from the charge operator. *)
Ltac diag_form :=
  repeat first [ eapply madd_diag | eapply msub_diag | eapply mscale_diag
               | eapply matmul_diag | eapply kron_diag | eapply n_operator_diag
               | eapply identity_diag | eapply eye_diag ].

Lemma nth_repeat_lt : forall (x d : C) m i,
  nth i (repeat x m) d = if Nat.ltb i m then x else d.
Proof.
  intros x d m. induction m as [|m IH]; intros [|i]; simpl; try reflexivity.
  rewrite IH. reflexivity.
Qed.

Lemma exp_i_phi_shape : forall self,
  mrows (_exp_i_phi_operator self) = (2 * ncut self + 1)%nat /\
  mcols (_exp_i_phi_operator self) = (2 * ncut self + 1)%nat.
Proof.
  intros self. unfold _exp_i_phi_operator, np_diag, ones.
  rewrite repeat_length. simpl. split; lia.
Qed.

Lemma exp_i_phi_entry : forall self i j,
  ment (_exp_i_phi_operator self) i j = RtoC (eval self i j).
Proof.
  intros self i j. unfold _exp_i_phi_operator, np_diag, ones, eval; cbn [ment].
  rewrite nth_repeat_lt, Nat.add_1_r.
  replace (2 * ncut self + 1 - 1)%nat with (2 * ncut self)%nat by lia.
  destruct (Nat.eqb j (S i)), (Nat.ltb i (2 * ncut self)); reflexivity.
Qed.

Lemma identity_entry : forall self i j,
  ment (_identity self) i j = RtoC (if Nat.eqb i j then 1 else 0).
Proof.
  intros self i j. unfold _identity, eye; simpl.
  destruct (Nat.eqb i j); reflexivity.
Qed.

(** ** C1: the kinetic matrix *)

(** C1: [kineticmat()] is [4 EC00 (N1 - ng1 I)^2 + 4 EC11 (N2 - ng2 I)^2
    + 4 (EC01 + EC10) (N1 - ng1 I)(N2 - ng2 I)] with [EC = EC_matrix()];
    when [EC_matrix()] raises, [kineticmat()] raises the same error. *)
Theorem kineticmat_composite_form : forall self : FluxQubit,
  match EC_matrix self with
  | Ok EC => exists K, kineticmat self = Ok K /\ meq K (kinetic_spec self EC)
  | Err e => kineticmat self = Err e
  end.
Proof.
  intros self. unfold kineticmat.
  destruct (EC_matrix self) as [EC|e]; cbn [bind]; [|reflexivity].
  eexists; split; [reflexivity|].
  unfold kinetic_spec. cbv zeta.
  eapply isdiag_meq.
  - diag_form.
  - diag_form.
  - intros i Hi. simpl. ring.
Qed.

(** ** C2: the potential matrix *)

Lemma identity_shape : forall self,
  mrows (_identity self) = (2 * ncut self + 1)%nat /\
  mcols (_identity self) = (2 * ncut self + 1)%nat.
Proof. intros self. split; reflexivity. Qed.

(** [np.exp(1j * 2 * np.pi * flux)] is [exp(i 2 pi flux)]. *)
Lemma phase_arg_eq : forall self,
  phase_arg self = mkC 0 (2 * PI * flux self).
Proof. intros self. unfold phase_arg. Csolve. Qed.

Lemma phase_arg_neg_eq : forall self,
  phase_arg_neg self = mkC 0 (- (2 * PI * flux self)).
Proof. intros self. unfold phase_arg_neg. Csolve. Qed.

Lemma neg_half : forall x, -0.5 * x = - (x / 2).
Proof. intros x. lra. Qed.

(** Rewrites every entry of the single-mode operators to its real value. *)
Ltac entries self :=
  let Hr := fresh in let Hc := fresh in let Ir := fresh in let Ic := fresh in
  destruct (exp_i_phi_shape self) as [Hr Hc];
  destruct (identity_shape self) as [Ir Ic];
  autorewrite with mat;
  rewrite ?Hr, ?Hc, ?Ir, ?Ic, ?exp_i_phi_entry, ?identity_entry, ?neg_half.

(** Splits on the Kronecker deltas of the identity and closes each case. *)
Ltac split_deltas :=
  repeat match goal with
         | |- context [Nat.eqb ?a ?b] => destruct (Nat.eqb_spec a b)
         end;
  first [exfalso; congruence | Csolve].

(** C2: [potentialmat()] is [-1/2 EJ1 (E1 + E1^dagger) - 1/2 EJ2 (E2 + E2^dagger)
    - 1/2 EJ3 exp(i 2 pi flux) (E (x) E^T) - 1/2 EJ3 exp(-i 2 pi flux) (E^T (x) E)]
    with [E1 = E (x) I], [E2 = I (x) E] and [E] the single-mode raising
    matrix. *)
Theorem potentialmat_composite_form : forall self : FluxQubit,
  meq (potentialmat self) (potential_spec self).
Proof.
  intros self. unfold potentialmat, potential_spec. cbv zeta.
  rewrite phase_arg_eq, phase_arg_neg_eq.
  unfold meq. split; [reflexivity|]. split; [reflexivity|].
  intros i j _ _. entries self. split_deltas.
Qed.

(** ** C3: the Hamiltonian is Hermitian *)

Lemma Cconj_Cexp_phase : forall t, Cconj (Cexp (mkC 0 t)) = Cexp (mkC 0 (- t)).
Proof.
  intros t. unfold Cconj, Cexp; simpl. rewrite cos_neg, sin_neg.
  apply C_ext; simpl; ring.
Qed.

Lemma diag_hermitian : forall A n f,
  isdiag A n f -> (forall i, (i < n)%nat -> Cconj (f i) = f i) -> meq A (dagger A).
Proof.
  intros A n f (Hr & Hc & HA) Hf.
  split; [simpl; congruence|]. split; [simpl; congruence|].
  intros i j Hi Hj. rewrite ment_dagger, HA, HA by congruence.
  destruct (Nat.eqb_spec i j) as [->|Hne].
  - rewrite Nat.eqb_refl, Hf by congruence. reflexivity.
  - destruct (Nat.eqb_spec j i); [congruence|]. Csolve.
Qed.

Lemma madd_hermitian : forall A B,
  mrows A = mcols A -> mrows B = mrows A -> mcols B = mcols A ->
  meq A (dagger A) -> meq B (dagger B) -> meq (madd A B) (dagger (madd A B)).
Proof.
  intros A B Hsq Hr Hc (_ & _ & HA) (_ & _ & HB).
  split; [simpl; congruence|]. split; [simpl; congruence|].
  intros i j Hi Hj. simpl in Hi, Hj.
  rewrite ment_dagger, !ment_madd, HA, HB by congruence.
  rewrite !ment_dagger. Csolve.
Qed.

Lemma potentialmat_shape : forall self,
  mrows (potentialmat self) = ((2 * ncut self + 1) * (2 * ncut self + 1))%nat /\
  mcols (potentialmat self) = ((2 * ncut self + 1) * (2 * ncut self + 1))%nat.
Proof.
  intros self. unfold potentialmat. cbv zeta.
  destruct (exp_i_phi_shape self) as [Hr Hc].
  destruct (identity_shape self) as [Ir Ic].
  autorewrite with mat. rewrite Hr, Hc, Ir, Ic. split; reflexivity.
Qed.

Lemma potentialmat_hermitian : forall self,
  meq (potentialmat self) (dagger (potentialmat self)).
Proof.
  intros self. destruct (potentialmat_shape self) as [Pr Pc].
  split; [rewrite rows_dagger; congruence|].
  split; [rewrite cols_dagger; congruence|].
  intros i j _ _. rewrite ment_dagger.
  unfold potentialmat. cbv zeta.
  rewrite !phase_arg_eq, !phase_arg_neg_eq. entries self.
  rewrite ?Cconj_Cexp_phase.
  repeat match goal with
         | |- context [Nat.eqb ?a ?b] => destruct (Nat.eqb_spec a b)
         end;
  first [exfalso; congruence | idtac].
  all: apply C_ext; unfold Cadd, Cmul, Csub, Copp, Cconj, RtoC, C0, C1, Ci;
    simpl; rewrite ?cos_neg, ?sin_neg, ?Ropp_involutive; ring.
Qed.

(** C3: for every parameter set (all parameters are real), the matrix
    returned by [hamiltonian()] equals its own conjugate transpose. *)
Theorem hamiltonian_hermitian : forall (self : FluxQubit) (H : mat),
  hamiltonian self = Ok H -> meq H (dagger H).
Proof.
  intros self H. unfold hamiltonian, kineticmat.
  destruct (EC_matrix self) as [EC|e]; cbn [bind]; intros HH; [|discriminate].
  injection HH as <-.
  destruct (potentialmat_shape self) as [Pr Pc].
  match goal with
  | |- meq (madd ?K _) _ =>
      assert (HK : exists f, isdiag K ((2 * ncut self + 1) * (2 * ncut self + 1)) f)
        by (eexists; diag_form)
  end.
  destruct HK as [f (Kr & Kc & _)].
  eapply madd_hermitian.
  - congruence.
  - congruence.
  - congruence.
  - eapply diag_hermitian.
    + diag_form.
    + intros i _. unfold nval. Csolve.
  - apply potentialmat_hermitian.
Qed.

(** ** The charging-energy matrix *)

Lemma pydiv_ok : forall x y, y <> 0 -> pydiv x y = Ok (x / y).
Proof.
  intros x y Hy. unfold pydiv. destruct (Req_EM_T y 0); [contradiction|reflexivity].
Qed.

Lemma double_nonzero : forall x, x <> 0 -> 2 * x <> 0.
Proof. intros x Hx. lra. Qed.

(** [EC_matrix()] on nonzero charging energies: it raises [LinAlgError]
    exactly when the capacitance matrix is singular, and returns half its
    adjugate over its determinant otherwise. *)
Lemma EC_matrix_cases : forall self, nonzero_EC self ->
  let Cm := Cmat_spec self in
  (det2 Cm = 0 -> EC_matrix self = Err LinAlgError) /\
  (det2 Cm <> 0 -> exists M, EC_matrix self = Ok M /\
     M 0%nat 0%nat = Cm 1%nat 1%nat / det2 Cm / 2 /\
     M 0%nat 1%nat = - Cm 0%nat 1%nat / det2 Cm / 2 /\
     M 1%nat 0%nat = - Cm 1%nat 0%nat / det2 Cm / 2 /\
     M 1%nat 1%nat = Cm 0%nat 0%nat / det2 Cm / 2).
Proof.
  intros self (H1 & H2 & H3 & H4 & H5) Cm.
  unfold EC_matrix.
  rewrite !pydiv_ok by (apply double_nonzero; assumption).
  cbn [bind]. unfold inv2, set2, zeros2. cbn [Nat.eqb andb].
  replace ((1 / (2 * ECJ1 self) + 1 / (2 * ECJ3 self) + 1 / (2 * ECg1 self)) *
           (1 / (2 * ECJ2 self) + 1 / (2 * ECJ3 self) + 1 / (2 * ECg2 self)) -
           - (1 / (2 * ECJ3 self)) * - (1 / (2 * ECJ3 self)))
    with (det2 Cm) by (unfold det2, Cm, Cmat_spec; ring).
  split; intros Hd; destruct (Req_EM_T (det2 Cm) 0) as [Hz|Hnz];
    try contradiction; try reflexivity.
  eexists; split; [reflexivity|]. unfold Cm, Cmat_spec. cbn beta iota.
  repeat split; reflexivity.
Qed.

Lemma Cmat_spec_det_pos : forall self, positive_EC self -> 0 < det2 (Cmat_spec self).
Proof.
  intros self (H1 & H2 & H3 & H4 & H5). unfold det2, Cmat_spec.
  assert (a1 : 0 < 1 / (2 * ECJ1 self)) by (apply Rdiv_lt_0_compat; lra).
  assert (a2 : 0 < 1 / (2 * ECJ2 self)) by (apply Rdiv_lt_0_compat; lra).
  assert (a3 : 0 < 1 / (2 * ECJ3 self)) by (apply Rdiv_lt_0_compat; lra).
  assert (a4 : 0 < 1 / (2 * ECg1 self)) by (apply Rdiv_lt_0_compat; lra).
  assert (a5 : 0 < 1 / (2 * ECg2 self)) by (apply Rdiv_lt_0_compat; lra).
  set (x1 := 1 / (2 * ECJ1 self)) in *. set (x2 := 1 / (2 * ECJ2 self)) in *.
  set (x3 := 1 / (2 * ECJ3 self)) in *. set (g1 := 1 / (2 * ECg1 self)) in *.
  set (g2 := 1 / (2 * ECg2 self)) in *.
  assert (0 < (x1 + g1) * (x2 + g2)) by (apply Rmult_lt_0_compat; lra).
  assert (0 < (x1 + g1) * x3) by (apply Rmult_lt_0_compat; lra).
  assert (0 < (x2 + g2) * x3) by (apply Rmult_lt_0_compat; lra).
  nra.
Qed.

Lemma positive_nonzero_EC : forall self, positive_EC self -> nonzero_EC self.
Proof. intros self (H1 & H2 & H3 & H4 & H5). repeat split; lra. Qed.

Lemma singular_qubit_EC_matrix : EC_matrix singular_qubit = Err LinAlgError.
Proof.
  assert (Hnz : nonzero_EC singular_qubit) by (unfold nonzero_EC; simpl; repeat split; lra).
  apply (proj1 (EC_matrix_cases singular_qubit Hnz)).
  unfold det2, Cmat_spec; simpl. field.
Qed.

Lemma sample_qubit_positive : positive_EC sample_qubit.
Proof. unfold positive_EC; simpl; repeat split; lra. Qed.

Lemma hamiltonian_hermitian_witness :
  exists H, hamiltonian sample_qubit = Ok H /\ meq H (dagger H).
Proof.
  destruct (proj2 (EC_matrix_cases sample_qubit
                     (positive_nonzero_EC sample_qubit sample_qubit_positive)))
    as [M [HM _]].
  { apply Rgt_not_eq, Cmat_spec_det_pos, sample_qubit_positive. }
  assert (HH : exists H, hamiltonian sample_qubit = Ok H)
    by (unfold hamiltonian, kineticmat; rewrite HM; eexists; reflexivity).
  destruct HH as [H HH].
  exists H. split; [exact HH|].
  exact (hamiltonian_hermitian sample_qubit H HH).
Defined.

(** ** C5 *)

(** C5, as stated: every parameter set with nonzero charging energies gets
    [inv(C)/2] back from [EC_matrix()].  It fails on [singular_qubit]: its
    charging energies are nonzero, [C] is singular and [EC_matrix()]
    raises. *)
Lemma EC_matrix_singular_counterexample :
  nonzero_EC singular_qubit /\ det2 (Cmat_spec singular_qubit) = 0 /\
  EC_matrix singular_qubit = Err LinAlgError.
Proof.
  split; [unfold nonzero_EC; simpl; repeat split; lra|].
  split; [unfold det2, Cmat_spec; simpl; field|].
  exact singular_qubit_EC_matrix.
Qed.

(** C5 (amended): for nonzero charging energies, when the capacitance
    matrix [C] of the spec is nonsingular (in particular when all charging
    energies are positive), [EC_matrix()] returns [M] with
    [M C = C M = I/2], i.e. [M = inv(C)/2]; when [C] is singular it raises
    [LinAlgError]. *)
Theorem EC_matrix_half_inverse : forall self : FluxQubit, nonzero_EC self ->
  (det2 (Cmat_spec self) <> 0 ->
     exists M, EC_matrix self = Ok M /\
       half_identity2 (rmul2 M (Cmat_spec self)) /\
       half_identity2 (rmul2 (Cmat_spec self) M)) /\
  (det2 (Cmat_spec self) = 0 -> EC_matrix self = Err LinAlgError) /\
  (positive_EC self -> det2 (Cmat_spec self) <> 0).
Proof.
  intros self Hnz.
  destruct (EC_matrix_cases self Hnz) as [Hsing Hreg].
  split; [|split; [exact Hsing|]].
  - intros Hd. destruct (Hreg Hd) as (M & HM & E00 & E01 & E10 & E11).
    exists M. split; [exact HM|].
    unfold half_identity2, rmul2. cbv beta. rewrite E00, E01, E10, E11.
    unfold det2 in *.
    set (c00 := Cmat_spec self 0%nat 0%nat) in *.
    set (c01 := Cmat_spec self 0%nat 1%nat) in *.
    set (c10 := Cmat_spec self 1%nat 0%nat) in *.
    set (c11 := Cmat_spec self 1%nat 1%nat) in *.
    repeat split; field; exact Hd.
  - intros Hpos. apply Rgt_not_eq, Cmat_spec_det_pos, Hpos.
Qed.

Lemma EC_matrix_half_inverse_witness :
  nonzero_EC sample_qubit /\ det2 (Cmat_spec sample_qubit) <> 0 /\
  exists M, EC_matrix sample_qubit = Ok M /\
    half_identity2 (rmul2 M (Cmat_spec sample_qubit)) /\
    half_identity2 (rmul2 (Cmat_spec sample_qubit) M).
Proof.
  assert (Hnz : nonzero_EC sample_qubit)
    by (apply positive_nonzero_EC, sample_qubit_positive).
  assert (Hd : det2 (Cmat_spec sample_qubit) <> 0)
    by (unfold det2, Cmat_spec; simpl; lra).
  split; [exact Hnz|]. split; [exact Hd|].
  exact (proj1 (EC_matrix_half_inverse sample_qubit Hnz) Hd).
Defined.

(** ** C10 *)

(** C10: the matrix returned by [EC_matrix()] is symmetric, so the
    cross-coupling coefficient [4 (EC01 + EC10)] of [kineticmat()] is
    [8 EC01]. *)
Theorem EC_matrix_symmetric : forall (self : FluxQubit) (M : rmat2),
  EC_matrix self = Ok M ->
  M 0%nat 1%nat = M 1%nat 0%nat /\
  4 * (M 0%nat 1%nat + M 1%nat 0%nat) = 8 * M 0%nat 1%nat.
Proof.
  intros self M. unfold EC_matrix, pydiv, inv2, set2, zeros2.
  repeat match goal with
         | |- context [Req_EM_T ?a ?b] => destruct (Req_EM_T a b)
         end; cbn [bind]; intros HM; try discriminate.
  cbn [Nat.eqb andb] in HM.
  destruct (Req_EM_T _ _) in HM; cbn [bind] in HM; [discriminate|].
  injection HM as <-.
  split; [reflexivity|lra].
Qed.

Lemma EC_matrix_symmetric_witness :
  exists M, EC_matrix sample_qubit = Ok M /\
    M 0%nat 1%nat = M 1%nat 0%nat /\
    4 * (M 0%nat 1%nat + M 1%nat 0%nat) = 8 * M 0%nat 1%nat.
Proof.
  assert (Hnz : nonzero_EC sample_qubit)
    by (apply positive_nonzero_EC, sample_qubit_positive).
  assert (Hd : det2 (Cmat_spec sample_qubit) <> 0)
    by (apply Rgt_not_eq, Cmat_spec_det_pos, sample_qubit_positive).
  destruct (proj2 (EC_matrix_cases sample_qubit Hnz) Hd) as (M & HM & _).
  exists M. split; [exact HM|].
  exact (EC_matrix_symmetric sample_qubit M HM).
Defined.

(** ** C4: the flattened basis index *)

Lemma flat_index_div_mod : forall d i j, (j < d)%nat ->
  ((i * d + j) / d)%nat = i /\ (i * d + j) mod d = j.
Proof.
  intros d i j Hj. split.
  - symmetry. apply (Nat.div_unique _ _ _ j); [exact Hj|lia].
  - symmetry. apply (Nat.mod_unique _ _ i); [exact Hj|lia].
Qed.

Lemma diag_basis_eigen : forall A n f k m,
  isdiag A n f -> (k < n)%nat -> (m < n)%nat ->
  matvec A (basis k) m = Cmul (f k) (basis k m).
Proof.
  intros A n f k m (Hr & Hc & HA) Hk Hm. unfold matvec, basis. rewrite Hc.
  rewrite (csum_ext n _ (fun l => if Nat.eqb k l then Cmul (ment A m k) C1 else C0)).
  - rewrite csum_delta by exact Hk. rewrite HA by assumption.
    destruct (Nat.eqb_spec m k) as [->|]; Csolve.
  - intros l Hl. destruct (Nat.eqb_spec l k) as [->|Hne].
    + rewrite Nat.eqb_refl. reflexivity.
    + destruct (Nat.eqb_spec k l); [congruence|]. Csolve.
Qed.

(** C4: with [d = 2 ncut + 1] and [0 <= i, j < d], the basis state at flat
    index [i d + j] has eigenvalue [i - ncut] under [n_1_operator()] and
    [j - ncut] under [n_2_operator()], and [wavefunction]'s reshape puts
    that flat index at row [i], column [j]. *)
Theorem flat_index_convention : forall (self : FluxQubit) (i j : nat),
  (i < 2 * ncut self + 1)%nat -> (j < 2 * ncut self + 1)%nat ->
  let d := (2 * ncut self + 1)%nat in
  (forall m, (m < d * d)%nat ->
     matvec (n_1_operator self) (basis (i * d + j)) m
     = Cmul (RtoC (IZR (Z.of_nat i - Z.of_nat (ncut self)))) (basis (i * d + j) m)) /\
  (forall m, (m < d * d)%nat ->
     matvec (n_2_operator self) (basis (i * d + j)) m
     = Cmul (RtoC (IZR (Z.of_nat j - Z.of_nat (ncut self)))) (basis (i * d + j) m)) /\
  (forall (evecs : mat) (which : nat),
     ment (state_amplitudes self evecs which) i j = ment evecs (i * d + j)%nat which).
Proof.
  intros self i j Hi Hj d.
  destruct (flat_index_div_mod d i j Hj) as [Hdiv Hmod].
  assert (Hk : (i * d + j < d * d)%nat) by nia.
  split; [|split].
  - intros m Hm. unfold n_1_operator.
    rewrite (diag_basis_eigen _ (d * d) _ _ _
               (kron_diag _ _ _ _ _ _ (n_operator_diag self) (identity_diag self)) Hk Hm).
    cbv beta. fold d. rewrite Hdiv. unfold nval. Csolve.
  - intros m Hm. unfold n_2_operator.
    rewrite (diag_basis_eigen _ (d * d) _ _ _
               (kron_diag _ _ _ _ _ _ (identity_diag self) (n_operator_diag self)) Hk Hm).
    cbv beta. fold d. rewrite Hmod. unfold nval. Csolve.
  - intros evecs which. reflexivity.
Qed.

Lemma flat_index_convention_witness :
  (1 < 2 * ncut sample_qubit + 1)%nat /\ (2 < 2 * ncut sample_qubit + 1)%nat /\
  let d := (2 * ncut sample_qubit + 1)%nat in
  (forall m, (m < d * d)%nat ->
     matvec (n_1_operator sample_qubit) (basis (1 * d + 2)) m
     = Cmul (RtoC (IZR (Z.of_nat 1 - Z.of_nat (ncut sample_qubit)))) (basis (1 * d + 2) m)) /\
  (forall m, (m < d * d)%nat ->
     matvec (n_2_operator sample_qubit) (basis (1 * d + 2)) m
     = Cmul (RtoC (IZR (Z.of_nat 2 - Z.of_nat (ncut sample_qubit)))) (basis (1 * d + 2) m)) /\
  (forall (evecs : mat) (which : nat),
     ment (state_amplitudes sample_qubit evecs which) 1 2 = ment evecs (1 * d + 2)%nat which).
Proof.
  assert (H1 : (1 < 2 * ncut sample_qubit + 1)%nat) by (simpl; lia).
  assert (H2 : (2 < 2 * ncut sample_qubit + 1)%nat) by (simpl; lia).
  split; [exact H1|]. split; [exact H2|].
  exact (flat_index_convention sample_qubit 1 2 H1 H2).
Defined.

(** ** C7: flux periodicity *)

Lemma phase_periodic : forall self f,
  Cexp (phase_arg (with_flux self (f + 1))) = Cexp (phase_arg (with_flux self f)).
Proof.
  intros self f. rewrite !phase_arg_eq. unfold Cexp; cbn [re im flux with_flux].
  replace (2 * PI * (f + 1)) with (2 * PI * f + 2 * INR 1 * PI) by (simpl; ring).
  rewrite cos_period, sin_period. reflexivity.
Qed.

Lemma phase_neg_periodic : forall self f,
  Cexp (phase_arg_neg (with_flux self (f + 1))) = Cexp (phase_arg_neg (with_flux self f)).
Proof.
  intros self f. rewrite !phase_arg_neg_eq. unfold Cexp; cbn [re im flux with_flux].
  rewrite !cos_neg, !sin_neg.
  replace (2 * PI * (f + 1)) with (2 * PI * f + 2 * INR 1 * PI) by (simpl; ring).
  rewrite cos_period, sin_period. reflexivity.
Qed.

(** C7: setting [flux = f + 1] or [flux = f] gives the very same result of
    [hamiltonian()] (the same matrix, or the same error). *)
Theorem hamiltonian_flux_periodic : forall (self : FluxQubit) (f : R),
  hamiltonian (with_flux self (f + 1)) = hamiltonian (with_flux self f).
Proof.
  intros self f. unfold hamiltonian.
  assert (HK : kineticmat (with_flux self (f + 1)) = kineticmat (with_flux self f))
    by reflexivity.
  assert (HP : potentialmat (with_flux self (f + 1)) = potentialmat (with_flux self f)).
  { unfold potentialmat. rewrite phase_periodic, phase_neg_periodic. reflexivity. }
  rewrite HK, HP. reflexivity.
Qed.

(** ** C9: the one-state truncation [ncut = 0] *)

Lemma kineticmat_shape : forall self K, kineticmat self = Ok K ->
  mrows K = ((2 * ncut self + 1) * (2 * ncut self + 1))%nat /\
  mcols K = ((2 * ncut self + 1) * (2 * ncut self + 1))%nat.
Proof.
  intros self K. unfold kineticmat.
  destruct (EC_matrix self) as [EC|e]; cbn [bind]; intros HK; [|discriminate].
  injection HK as <-.
  match goal with
  | |- mrows ?K = _ /\ _ =>
      assert (HKd : exists f, isdiag K ((2 * ncut self + 1) * (2 * ncut self + 1)) f)
        by (eexists; diag_form)
  end.
  destruct HKd as [f (Kr & Kc & _)]. split; assumption.
Qed.

(** C9, as stated: with [ncut = 0], [kineticmat()] and [hamiltonian()]
    return without error.  They raise on [singular_qubit], which has
    [ncut = 0]: its [EC_matrix()] raises [LinAlgError]. *)
Lemma ncut_zero_counterexample :
  ncut singular_qubit = 0%nat /\
  kineticmat singular_qubit = Err LinAlgError /\
  hamiltonian singular_qubit = Err LinAlgError.
Proof.
  split; [reflexivity|].
  unfold hamiltonian, kineticmat. rewrite singular_qubit_EC_matrix.
  split; reflexivity.
Qed.

(** C9 (amended): with [ncut = 0], [hilbertdim()] is 1, the single-mode
    operators are 1x1 (the raising operator is the 1x1 zero matrix, built
    from an empty off-diagonal), [potentialmat()] is 1x1, and
    [kineticmat()] and [hamiltonian()] return 1x1 matrices whenever
    [EC_matrix()] succeeds; otherwise they raise [EC_matrix()]'s error. *)
Theorem ncut_zero_one_state : forall self : FluxQubit, ncut self = 0%nat ->
  hilbertdim self = 1%nat /\
  (mrows (_n_operator self) = 1%nat /\ mcols (_n_operator self) = 1%nat) /\
  (mrows (_identity self) = 1%nat /\ mcols (_identity self) = 1%nat) /\
  ones (2 * ncut self + 1 - 1) = [] /\
  meq (_exp_i_phi_operator self) (Mat 1 1 (fun _ _ => C0)) /\
  (mrows (potentialmat self) = 1%nat /\ mcols (potentialmat self) = 1%nat) /\
  match EC_matrix self with
  | Ok _ => exists K H, kineticmat self = Ok K /\ hamiltonian self = Ok H /\
              mrows K = 1%nat /\ mcols K = 1%nat /\ mrows H = 1%nat /\ mcols H = 1%nat
  | Err e => kineticmat self = Err e /\ hamiltonian self = Err e
  end.
Proof.
  intros self H0.
  destruct (n_operator_diag self) as (Nr & Nc & _).
  destruct (identity_shape self) as [Ir Ic].
  destruct (exp_i_phi_shape self) as [Er Ec].
  destruct (potentialmat_shape self) as [Pr Pc].
  rewrite H0 in Nr, Nc, Ir, Ic, Er, Ec, Pr, Pc.
  split; [unfold hilbertdim; rewrite H0; reflexivity|].
  split; [split; assumption|].
  split; [split; assumption|].
  split; [rewrite H0; reflexivity|].
  split.
  { split; [exact Er|]. split; [exact Ec|].
    intros i j Hi Hj. rewrite exp_i_phi_entry. unfold eval. rewrite H0.
    replace i with 0%nat by lia. replace j with 0%nat by lia. reflexivity. }
  split; [split; assumption|].
  destruct (EC_matrix self) as [EC|e] eqn:HEC.
  - assert (HK : exists K, kineticmat self = Ok K)
      by (unfold kineticmat; rewrite HEC; eexists; reflexivity).
    destruct HK as [K HK].
    destruct (kineticmat_shape self K HK) as [Kr Kc]. rewrite H0 in Kr, Kc.
    exists K, (madd K (potentialmat self)).
    split; [exact HK|]. split; [unfold hamiltonian; rewrite HK; reflexivity|].
    repeat split; assumption.
  - unfold hamiltonian, kineticmat. rewrite HEC. split; reflexivity.
Qed.

Lemma ncut_zero_one_state_witness :
  ncut zero_cut_qubit = 0%nat /\
  hilbertdim zero_cut_qubit = 1%nat /\
  (mrows (_n_operator zero_cut_qubit) = 1%nat /\ mcols (_n_operator zero_cut_qubit) = 1%nat) /\
  (mrows (_identity zero_cut_qubit) = 1%nat /\ mcols (_identity zero_cut_qubit) = 1%nat) /\
  ones (2 * ncut zero_cut_qubit + 1 - 1) = [] /\
  meq (_exp_i_phi_operator zero_cut_qubit) (Mat 1 1 (fun _ _ => C0)) /\
  (mrows (potentialmat zero_cut_qubit) = 1%nat /\ mcols (potentialmat zero_cut_qubit) = 1%nat) /\
  match EC_matrix zero_cut_qubit with
  | Ok _ => exists K H, kineticmat zero_cut_qubit = Ok K /\ hamiltonian zero_cut_qubit = Ok H /\
              mrows K = 1%nat /\ mcols K = 1%nat /\ mrows H = 1%nat /\ mcols H = 1%nat
  | Err e => kineticmat zero_cut_qubit = Err e /\ hamiltonian zero_cut_qubit = Err e
  end.
Proof.
  assert (H0 : ncut zero_cut_qubit = 0%nat) by reflexivity.
  split; [exact H0|].
  exact (ncut_zero_one_state zero_cut_qubit H0).
Defined.

(** ** Sorting the eigenvalues *)

Lemma insert_sorted_perm : forall x l, Permutation (insert_sorted x l) (x :: l).
Proof.
  intros x l. induction l as [|y l IH]; simpl; [reflexivity|].
  destruct (Rle_dec x y); [reflexivity|].
  rewrite IH. apply perm_swap.
Qed.

Lemma insert_sorted_hd : forall y x l,
  HdRel Rle y l -> y <= x -> HdRel Rle y (insert_sorted x l).
Proof.
  intros y x [|z l] Hhd Hyx; simpl; [constructor; exact Hyx|].
  destruct (Rle_dec x z); constructor; [exact Hyx|].
  inversion Hhd; assumption.
Qed.

Lemma insert_sorted_sorted : forall x l, Sorted Rle l -> Sorted Rle (insert_sorted x l).
Proof.
  intros x l. induction l as [|y l IH]; intros Hs; simpl.
  - repeat constructor.
  - apply Sorted_inv in Hs as [Hl Hhd].
    destruct (Rle_dec x y) as [Hxy|Hxy].
    + constructor; [constructor; assumption|constructor; exact Hxy].
    + constructor; [apply IH, Hl|].
      apply insert_sorted_hd; [exact Hhd|lra].
Qed.

Lemma np_sort_perm : forall l, Permutation (np_sort l) l.
Proof.
  induction l as [|x l IH]; simpl; [reflexivity|].
  rewrite insert_sorted_perm, IH. reflexivity.
Qed.

Lemma np_sort_sorted : forall l, Sorted Rle (np_sort l).
Proof.
  induction l as [|x l IH]; simpl; [constructor|].
  apply insert_sorted_sorted, IH.
Qed.

(** Two ascending rearrangements of one list of reals are equal. *)
Lemma sorted_perm_unique : forall l1 l2,
  Sorted Rle l1 -> Sorted Rle l2 -> Permutation l1 l2 -> l1 = l2.
Proof.
  induction l1 as [|a l1 IH]; intros l2 H1 H2 Hp.
  - symmetry. apply Permutation_nil, Hp.
  - destruct l2 as [|b l2].
    + apply Permutation_sym, Permutation_nil in Hp. discriminate.
    + assert (Htr : forall x y z : R, x <= y -> y <= z -> x <= z)
        by (intros; lra).
      pose proof (Sorted_StronglySorted Htr H1) as S1.
      pose proof (Sorted_StronglySorted Htr H2) as S2.
      apply StronglySorted_inv in S1 as [_ F1].
      apply StronglySorted_inv in S2 as [_ F2].
      assert (Hab : a = b).
      { assert (Ha : In a (b :: l2)) by (apply (Permutation_in _ Hp); left; reflexivity).
        assert (Hb : In b (a :: l1))
          by (apply (Permutation_in _ (Permutation_sym Hp)); left; reflexivity).
        destruct Ha as [Ha|Ha]; [congruence|].
        destruct Hb as [Hb|Hb]; [congruence|].
        rewrite Forall_forall in F1, F2.
        apply Rle_antisym; [apply F1, Hb|apply F2, Ha]. }
      subst b. f_equal.
      apply IH; [apply Sorted_inv in H1; tauto|apply Sorted_inv in H2; tauto|].
      apply Permutation_cons_inv in Hp. exact Hp.
Qed.

Lemma np_sort_perm_eq : forall l1 l2, Permutation l1 l2 -> np_sort l1 = np_sort l2.
Proof.
  intros l1 l2 Hp. apply sorted_perm_unique; try apply np_sort_sorted.
  rewrite !np_sort_perm. exact Hp.
Qed.

Lemma insert_pair_fst : forall (V : Type) (x : R * V) l,
  map fst (insert_pair x l) = insert_sorted (fst x) (map fst l).
Proof.
  intros V x l. induction l as [|y l IH]; simpl; [reflexivity|].
  destruct (Rle_dec (fst x) (fst y)); simpl; [reflexivity|].
  rewrite IH. reflexivity.
Qed.

Lemma map_fst_combine : forall (V : Type) (l1 : list R) (l2 : list V),
  length l2 = length l1 -> map fst (combine l1 l2) = l1.
Proof.
  intros V l1. induction l1 as [|a l1 IH]; intros [|b l2] Hl; simpl in *;
    try discriminate; [reflexivity|].
  rewrite IH by lia. reflexivity.
Qed.

(** The eigenvalues put out by [order_eigensystem] are the sorted
    eigenvalues. *)
Lemma order_eigensystem_evals : forall (V : Type) (evals : list R) (evecs : list V),
  length evecs = length evals ->
  fst (order_eigensystem evals evecs) = np_sort evals.
Proof.
  intros V evals evecs Hl. unfold order_eigensystem; simpl.
  rewrite <- (map_fst_combine V evals evecs Hl) at 2.
  unfold np_sort. induction (combine evals evecs) as [|x ps IH]; simpl; [reflexivity|].
  rewrite insert_pair_fst, IH. reflexivity.
Qed.

(** ** C6 and C8: the spectral hooks *)

Lemma hamiltonian_rows : forall self H, hamiltonian self = Ok H ->
  mrows H = hilbertdim self.
Proof.
  intros self H. unfold hamiltonian.
  destruct (kineticmat self) as [K|e] eqn:HK; cbn [bind]; intros HH; [|discriminate].
  injection HH as <-. rewrite rows_madd.
  destruct (kineticmat_shape self K HK) as [Kr _]. rewrite Kr.
  unfold hilbertdim. rewrite Nat.pow_2_r. reflexivity.
Qed.

Section SpectralAgreement.

Variable eigh_solve : mat -> nat -> nat -> bool -> list R * list (nat -> C).

(** In exact arithmetic both drivers compute the eigenvalues with indices
    [lo..hi] of [H]: the same values, each reported in its own order. *)
Hypothesis eigh_solve_spectrum : forall H lo hi,
  Permutation (fst (eigh_solve H lo hi true)) (fst (eigh_solve H lo hi false)).
Hypothesis eigh_solve_count : forall H lo hi b,
  length (fst (eigh_solve H lo hi b)) = (S hi - lo)%nat.
Hypothesis eigh_solve_vectors : forall H lo hi,
  length (snd (eigh_solve H lo hi false)) = length (fst (eigh_solve H lo hi false)).

(** C6: for [1 <= k <= hilbertdim()], [_esys_calc(k)] and [_evals_calc(k)]
    return the same eigenvalues, ascending, [k] of them (or both raise the
    same error of [hamiltonian()]). *)
Theorem esys_evals_agree : forall (self : FluxQubit) (k : Z),
  (1 <= k)%Z -> (k <= Z.of_nat (hilbertdim self))%Z ->
  match _evals_calc eigh_solve self k, _esys_calc eigh_solve self k with
  | Ok ev, Ok es => ev = fst es /\ length ev = Z.to_nat k /\ Sorted Rle ev
  | Err e, Err e' => e = e'
  | _, _ => False
  end.
Proof.
  intros self k Hk1 Hk2. unfold _evals_calc, _esys_calc.
  destruct (hamiltonian self) as [H|e] eqn:HH; cbn [bind]; [|reflexivity].
  pose proof (hamiltonian_rows self H HH) as Hrows.
  unfold eigh.
  assert (Hc : ((0 <=? 0)%Z && (0 <=? k - 1)%Z && (k - 1 <? Z.of_nat (mrows H))%Z)%bool
               = true).
  { rewrite Hrows. apply andb_true_intro; split; [apply andb_true_intro; split|].
    - apply Z.leb_le; lia.
    - apply Z.leb_le; lia.
    - apply Z.ltb_lt; lia. }
  rewrite Hc. cbn [bind].
  set (hi := Z.to_nat (k - 1)).
  split; [|split].
  - rewrite order_eigensystem_evals by apply eigh_solve_vectors.
    apply np_sort_perm_eq, eigh_solve_spectrum.
  - rewrite (Permutation_length (np_sort_perm _)), eigh_solve_count. unfold hi. lia.
  - apply np_sort_sorted.
Qed.

End SpectralAgreement.

(** C8, as stated: a [count] out of range makes the hooks raise a range
    error.  On [singular_qubit] with [count = 0] the error raised is the
    [LinAlgError] of [hamiltonian()]. *)
Lemma count_range_counterexample :
  _evals_calc zero_solver singular_qubit 0 = Err LinAlgError /\
  _esys_calc zero_solver singular_qubit 0 = Err LinAlgError.
Proof.
  unfold _evals_calc, _esys_calc, hamiltonian, kineticmat.
  rewrite singular_qubit_EC_matrix. split; reflexivity.
Qed.

Section SpectralRange.

Variable eigh_solve : mat -> nat -> nat -> bool -> list R * list (nat -> C).

(** C8 (amended): for [count <= 0] or [count > hilbertdim()], both hooks
    raise and leave the instance unchanged; the error is scipy's range
    error ([ValueError]) when [hamiltonian()] can be built, and otherwise
    the error [hamiltonian()] raises. *)
Theorem count_out_of_range_fails : forall (self : FluxQubit) (k : Z),
  (k <= 0 \/ Z.of_nat (hilbertdim self) < k)%Z ->
  snd (_evals_calc_st eigh_solve self k) = self /\
  snd (_esys_calc_st eigh_solve self k) = self /\
  match hamiltonian self with
  | Ok _ => fst (_evals_calc_st eigh_solve self k) = Err ValueError /\
            fst (_esys_calc_st eigh_solve self k) = Err ValueError
  | Err e => fst (_evals_calc_st eigh_solve self k) = Err e /\
             fst (_esys_calc_st eigh_solve self k) = Err e
  end.
Proof.
  intros self k Hk. split; [reflexivity|]. split; [reflexivity|].
  unfold _evals_calc_st, _esys_calc_st, _evals_calc, _esys_calc; cbn [fst].
  destruct (hamiltonian self) as [H|e] eqn:HH; cbn [bind]; [|split; reflexivity].
  pose proof (hamiltonian_rows self H HH) as Hrows.
  unfold eigh.
  assert (Hc : ((0 <=? 0)%Z && (0 <=? k - 1)%Z && (k - 1 <? Z.of_nat (mrows H))%Z)%bool
               = false).
  { rewrite Hrows. destruct Hk as [Hk|Hk].
    - replace ((0 <=? k - 1)%Z) with false by (symmetry; apply Z.leb_gt; lia).
      rewrite andb_false_r. reflexivity.
    - replace ((k - 1 <? Z.of_nat (hilbertdim self))%Z) with false
        by (symmetry; apply Z.ltb_ge; lia).
      apply andb_false_r. }
  rewrite Hc. split; reflexivity.
Qed.

End SpectralRange.

Lemma esys_evals_agree_witness :
  (1 <= 3)%Z /\ (3 <= Z.of_nat (hilbertdim sample_qubit))%Z /\
  match _evals_calc zero_solver sample_qubit 3, _esys_calc zero_solver sample_qubit 3 with
  | Ok ev, Ok es => ev = fst es /\ length ev = Z.to_nat 3 /\ Sorted Rle ev
  | Err e, Err e' => e = e'
  | _, _ => False
  end.
Proof.
  assert (H1 : (1 <= 3)%Z) by lia.
  assert (H2 : (3 <= Z.of_nat (hilbertdim sample_qubit))%Z)
    by (unfold hilbertdim; simpl; lia).
  split; [exact H1|]. split; [exact H2|].
  apply (esys_evals_agree zero_solver).
  - intros H lo hi. apply Permutation_refl.
  - intros H lo hi b. unfold zero_solver; simpl. apply repeat_length.
  - intros H lo hi. unfold zero_solver; simpl. rewrite !repeat_length. reflexivity.
  - exact H1.
  - exact H2.
Defined.

Lemma count_out_of_range_fails_witness :
  (0 <= 0 \/ Z.of_nat (hilbertdim sample_qubit) < 0)%Z /\
  snd (_evals_calc_st zero_solver sample_qubit 0) = sample_qubit /\
  snd (_esys_calc_st zero_solver sample_qubit 0) = sample_qubit /\
  match hamiltonian sample_qubit with
  | Ok _ => fst (_evals_calc_st zero_solver sample_qubit 0) = Err ValueError /\
            fst (_esys_calc_st zero_solver sample_qubit 0) = Err ValueError
  | Err e => fst (_evals_calc_st zero_solver sample_qubit 0) = Err e /\
             fst (_esys_calc_st zero_solver sample_qubit 0) = Err e
  end.
Proof.
  assert (Hk : (0 <= 0 \/ Z.of_nat (hilbertdim sample_qubit) < 0)%Z) by lia.
  split; [exact Hk|].
  exact (count_out_of_range_fails zero_solver sample_qubit 0 Hk).
Defined.

(** ** The two-mode operators, the potential and the wavefunction *)

(** ** Shift arrays *)

Lemma csum_delta_gen : forall n m h,
  csum n (fun k => if Nat.eqb m k then h k else C0) = if Nat.ltb m n then h m else C0.
Proof.
  intros n m h. destruct (Nat.ltb_spec m n) as [Hm|Hm].
  - apply csum_delta; exact Hm.
  - apply csum_zero. intros k Hk. destruct (Nat.eqb_spec m k); [lia|reflexivity].
Qed.

Lemma matmul_shift_l : forall A X n s ok i j,
  isshift A n s ok -> mrows X = n -> (i < n)%nat ->
  ment (matmul A X) i j = if ok i then ment X (i + s)%nat j else C0.
Proof.
  intros A X n s ok i j (Hr & Hc & Hok & HA) HX Hi. cbn [matmul ment]. rewrite Hc.
  rewrite (csum_ext n _ (fun k => if Nat.eqb (i + s) k then
                                     (if ok i then ment X k j else C0) else C0)).
  - rewrite csum_delta_gen. destruct (ok i) eqn:E.
    + specialize (Hok i Hi E). destruct (Nat.ltb_spec (i + s) n); [reflexivity|lia].
    + destruct (Nat.ltb (i + s) n); reflexivity.
  - intros k Hk. rewrite HA by lia. rewrite (Nat.eqb_sym (i + s) k).
    destruct (Nat.eqb k (i + s)), (ok i); cbn [andb]; Csolve.
Qed.

(** Left multiplication by an array whose row [i] is that of a transposed
    shift. *)
Lemma matmul_shiftT_l : forall B X n s ok i j,
  mcols B = n -> (i < n)%nat ->
  (forall k, (k < n)%nat -> ment B i k = if Nat.eqb i (k + s) && ok k then C1 else C0) ->
  ment (matmul B X) i j =
  if Nat.leb s i && ok (i - s)%nat then ment X (i - s)%nat j else C0.
Proof.
  intros B X n s ok i j Hc Hi HB. cbn [matmul ment]. rewrite Hc.
  destruct (Nat.leb_spec s i) as [Hs|Hs]; cbn [andb].
  - rewrite (csum_ext n _ (fun k => if Nat.eqb (i - s) k then
                                       (if ok (i - s)%nat then ment X k j else C0) else C0)).
    + rewrite csum_delta_gen. destruct (Nat.ltb_spec (i - s) n); [|lia].
      destruct (ok (i - s)%nat); reflexivity.
    + intros k Hk. rewrite HB by exact Hk.
      destruct (Nat.eqb_spec i (k + s)) as [->|Hne];
        destruct (Nat.eqb_spec (k + s - s) k) as [E|E]; try lia.
      * rewrite E. destruct (ok k); cbn [andb]; Csolve.
      * destruct (Nat.eqb_spec (i - s) k); [lia|]. cbn [andb]. Csolve.
  - apply csum_zero. intros k Hk. rewrite HB by exact Hk.
    destruct (Nat.eqb_spec i (k + s)); [lia|]. cbn [andb]. Csolve.
Qed.

Lemma matmul_diag_l : forall A X n f i j,
  isdiag A n f -> (i < n)%nat -> ment (matmul A X) i j = Cmul (f i) (ment X i j).
Proof.
  intros A X n f i j (Hr & Hc & HA) Hi. cbn [matmul ment]. rewrite Hc.
  rewrite (csum_ext n _ (fun k => if Nat.eqb i k then Cmul (f i) (ment X k j) else C0)).
  - rewrite csum_delta_gen. destruct (Nat.ltb_spec i n); [reflexivity|lia].
  - intros k Hk. rewrite HA by lia. destruct (Nat.eqb_spec i k) as [->|]; [reflexivity|Csolve].
Qed.

Lemma matmul_diag_r : forall A X n f i j,
  isdiag A n f -> mcols X = n -> (j < n)%nat ->
  ment (matmul X A) i j = Cmul (ment X i j) (f j).
Proof.
  intros A X n f i j (Hr & Hc & HA) HX Hj. cbn [matmul ment]. rewrite HX.
  rewrite (csum_ext n _ (fun k => if Nat.eqb j k then Cmul (ment X i k) (f j) else C0)).
  - rewrite csum_delta_gen. destruct (Nat.ltb_spec j n); [reflexivity|lia].
  - intros k Hk. rewrite HA by lia. rewrite (Nat.eqb_sym k j).
    destruct (Nat.eqb_spec j k) as [->|]; [reflexivity|Csolve].
Qed.

(** Index arithmetic of the Kronecker product. *)
Lemma div_mod_add_mul : forall m a s, m <> 0%nat ->
  ((a + s * m) / m = a / m + s)%nat /\ ((a + s * m) mod m = a mod m)%nat.
Proof.
  intros m a s Hm. split.
  - apply Nat.div_add; exact Hm.
  - apply Nat.Div0.mod_add.
Qed.

Lemma div_mod_add_small : forall m a s, (a mod m + s < m)%nat ->
  ((a + s) / m = a / m)%nat /\ ((a + s) mod m = a mod m + s)%nat.
Proof.
  intros m a s H.
  assert (Hm : m <> 0%nat) by lia.
  assert (E : (a + s = m * (a / m) + (a mod m + s))%nat)
    by (pose proof (Nat.div_mod_eq a m); lia).
  split.
  - symmetry. apply (Nat.div_unique _ _ _ (a mod m + s)); [exact H|exact E].
  - symmetry. apply (Nat.mod_unique _ _ (a / m) _); [exact H|exact E].
Qed.

Lemma div_lt_of_lt_mul : forall a n m, (a < n * m)%nat -> (a / m < n)%nat.
Proof. intros a n m H. apply Nat.Div0.div_lt_upper_bound. lia. Qed.

Lemma mod_lt_of_lt_mul : forall a n m, (a < n * m)%nat -> (a mod m < m)%nat.
Proof. intros a n m H. apply Nat.mod_upper_bound. intros ->. lia. Qed.

Lemma exp_i_phi_shift : forall self,
  isshift (_exp_i_phi_operator self) (2 * ncut self + 1) 1
          (fun i => Nat.ltb i (2 * ncut self)).
Proof.
  intros self. destruct (exp_i_phi_shape self) as [Hr Hc].
  split; [exact Hr|]. split; [exact Hc|]. split.
  - intros i _ Hi. apply Nat.ltb_lt in Hi. lia.
  - intros i j _ _. rewrite exp_i_phi_entry. unfold eval. rewrite Nat.add_1_r.
    destruct (Nat.eqb j (S i) && Nat.ltb i (2 * ncut self)); reflexivity.
Qed.

Lemma kron_shift_eye_r : forall A n m s ok,
  isshift A n s ok ->
  isshift (kron A (eye m)) (n * m) (s * m) (fun a => ok (a / m)%nat).
Proof.
  intros A n m s ok (Hr & Hc & Hok & HA).
  split; [cbn; congruence|]. split; [cbn; congruence|]. split.
  - intros a Ha Hoka.
    specialize (Hok _ (div_lt_of_lt_mul _ _ _ Ha) Hoka).
    pose proof (Nat.div_mod_eq a m) as Ea.
    pose proof (mod_lt_of_lt_mul _ _ _ Ha) as Ba.
    set (q := (a / m)%nat) in *. set (r := (a mod m)%nat) in *.
    clearbody q r. subst a. nia.
  - intros a b Ha Hb. cbn [kron eye ment mrows mcols].
    assert (Hm : m <> 0%nat) by (intros ->; lia).
    rewrite HA by (apply div_lt_of_lt_mul; assumption).
    destruct (div_mod_add_mul m a s Hm) as [Eq Er].
    rewrite <- (div_mod_eqb m b (a + s * m) Hm), Eq, Er.
    rewrite (Nat.eqb_sym (a mod m) (b mod m)).
    destruct (Nat.eqb (b / m) (a / m + s)), (ok (a / m)%nat),
             (Nat.eqb (b mod m) (a mod m)); cbn [andb]; Csolve.
Qed.

Lemma kron_eye_shift_l : forall A n m s ok,
  isshift A m s ok ->
  isshift (kron (eye n) A) (n * m) s (fun a => ok (a mod m)%nat).
Proof.
  intros A n m s ok (Hr & Hc & Hok & HA).
  split; [cbn; congruence|]. split; [cbn; congruence|]. split.
  - intros a Ha Hoka.
    pose proof (mod_lt_of_lt_mul _ _ _ Ha) as Ba.
    specialize (Hok _ Ba Hoka).
    pose proof (Nat.div_mod_eq a m) as Ea.
    pose proof (div_lt_of_lt_mul _ _ _ Ha) as Bq.
    set (q := (a / m)%nat) in *. set (r := (a mod m)%nat) in *.
    clearbody q r. subst a. nia.
  - intros a b Ha Hb. cbn [kron eye ment mrows mcols]. rewrite Hr, Hc.
    assert (Hm : m <> 0%nat) by (intros ->; lia).
    rewrite HA by (apply mod_lt_of_lt_mul with n; assumption).
    destruct (ok (a mod m)%nat) eqn:Ek.
    + assert (Hs : (a mod m + s < m)%nat)
        by (apply Hok; [apply mod_lt_of_lt_mul with n; exact Ha|exact Ek]).
      destruct (div_mod_add_small m a s Hs) as [Eq Er].
      rewrite <- (div_mod_eqb m b (a + s) Hm), Eq, Er.
      rewrite (Nat.eqb_sym (a / m) (b / m)).
      destruct (Nat.eqb (b / m) (a / m)), (Nat.eqb (b mod m) (a mod m + s));
        cbn [andb]; Csolve.
    + rewrite !andb_false_r. Csolve.
Qed.

(** ** The composite phase operators *)

Lemma isdiag_ext : forall A n f g,
  isdiag A n f -> (forall i, (i < n)%nat -> f i = g i) -> isdiag A n g.
Proof.
  intros A n f g (Hr & Hc & HA) Hfg. split; [exact Hr|]. split; [exact Hc|].
  intros i j Hi Hj. rewrite HA by assumption.
  destruct (Nat.eqb_spec i j); [apply Hfg; exact Hi|reflexivity].
Qed.

Lemma exp_i_phi_1_shift : forall self,
  let d := (2 * ncut self + 1)%nat in
  isshift (exp_i_phi_1_operator self) (d * d) d
          (fun a => Nat.ltb (a / d) (2 * ncut self)).
Proof.
  intros self d.
  pose proof (kron_shift_eye_r _ _ d _ _ (exp_i_phi_shift self)) as H.
  rewrite Nat.mul_1_l in H. exact H.
Qed.

Lemma exp_i_phi_2_shift : forall self,
  let d := (2 * ncut self + 1)%nat in
  isshift (exp_i_phi_2_operator self) (d * d) 1
          (fun a => Nat.ltb (a mod d) (2 * ncut self)).
Proof.
  intros self d. exact (kron_eye_shift_l _ d _ _ _ (exp_i_phi_shift self)).
Qed.

Lemma n_1_diag : forall self,
  let d := (2 * ncut self + 1)%nat in
  isdiag (n_1_operator self) (d * d) (fun a => nval self (a / d)%nat).
Proof.
  intros self; cbv zeta. eapply isdiag_ext.
  - exact (kron_diag _ _ _ _ _ _ (n_operator_diag self) (identity_diag self)).
  - intros i _. cbv beta. ring.
Qed.

Lemma n_2_diag : forall self,
  let d := (2 * ncut self + 1)%nat in
  isdiag (n_2_operator self) (d * d) (fun a => nval self (a mod d)%nat).
Proof.
  intros self; cbv zeta. eapply isdiag_ext.
  - exact (kron_diag _ _ _ _ _ _ (identity_diag self) (n_operator_diag self)).
  - intros i _. cbv beta. ring.
Qed.

Lemma nval_add1 : forall self q, nval self (q + 1)%nat = Cadd (nval self q) C1.
Proof.
  intros self q. unfold nval.
  replace (Z.of_nat (q + 1) - Z.of_nat (ncut self))%Z
    with ((Z.of_nat q - Z.of_nat (ncut self)) + 1)%Z by lia.
  rewrite plus_IZR. Csolve.
Qed.

(** A diagonal array against a shift: [N A - A N = -c A] when the
    diagonal grows by [c] along the shift. *)
Lemma diag_shift_commutator : forall N A n s ok f c,
  isdiag N n f -> isshift A n s ok ->
  (forall i, (i < n)%nat -> ok i = true -> f (i + s)%nat = Cadd (f i) c) ->
  meq (msub (matmul N A) (matmul A N)) (mscale (Copp c) A).
Proof.
  intros N A n s ok f c HN HA Hf.
  pose proof HN as (Nr & Nc & _). pose proof HA as (Ar & Ac & Aok & AA).
  split; [cbn; congruence|]. split; [cbn; congruence|].
  intros i j Hi Hj. cbn [mrows mcols msub matmul] in Hi, Hj.
  rewrite Nr in Hi. rewrite Ac in Hj.
  rewrite ment_msub, ment_mscale, (matmul_diag_l _ _ _ _ _ _ HN Hi),
          (matmul_diag_r _ _ _ _ _ _ HN Ac Hj), AA by assumption.
  destruct (Nat.eqb_spec j (i + s)) as [->|]; destruct (ok i) eqn:Eo;
    cbn [andb]; try Csolve.
  rewrite (Hf i Hi Eo). Csolve.
Qed.

Lemma diag_shift_commute : forall N A n s ok f,
  isdiag N n f -> isshift A n s ok ->
  (forall i, (i < n)%nat -> ok i = true -> f (i + s)%nat = f i) ->
  meq (matmul N A) (matmul A N).
Proof.
  intros N A n s ok f HN HA Hf.
  pose proof HN as (Nr & Nc & _). pose proof HA as (Ar & Ac & Aok & AA).
  split; [cbn; congruence|]. split; [cbn; congruence|].
  intros i j Hi Hj. cbn [mrows mcols matmul] in Hi, Hj.
  rewrite Nr in Hi. rewrite Ac in Hj.
  rewrite (matmul_diag_l _ _ _ _ _ _ HN Hi), (matmul_diag_r _ _ _ _ _ _ HN Ac Hj),
          AA by assumption.
  destruct (Nat.eqb_spec j (i + s)) as [->|]; destruct (ok i) eqn:Eo;
    cbn [andb]; try Csolve.
  rewrite (Hf i Hi Eo). Csolve.
Qed.

Lemma shift_shift_commute : forall A B n s t ok ok',
  isshift A n s ok -> isshift B n t ok' ->
  (forall i, (i < n)%nat -> ok i = true -> ok' (i + s)%nat = ok' i) ->
  (forall i, (i < n)%nat -> ok' i = true -> ok (i + t)%nat = ok i) ->
  meq (matmul A B) (matmul B A).
Proof.
  intros A B n s t ok ok' HA HB H1 H2.
  pose proof HA as (Ar & Ac & Aok & AA). pose proof HB as (Br & Bc & Bok & BB).
  split; [cbn; congruence|]. split; [cbn; congruence|].
  intros i j Hi Hj. cbn [mrows mcols matmul] in Hi, Hj.
  rewrite Ar in Hi. rewrite Bc in Hj.
  rewrite (matmul_shift_l _ _ _ _ _ _ _ HA Br Hi), (matmul_shift_l _ _ _ _ _ _ _ HB Ar Hi).
  destruct (ok i) eqn:Eo, (ok' i) eqn:Eo'.
  - rewrite BB, AA by (try apply Aok; try apply Bok; assumption).
    rewrite (H1 i Hi Eo), (H2 i Hi Eo'), Eo, Eo'.
    replace (i + t + s)%nat with (i + s + t)%nat by lia. reflexivity.
  - rewrite BB by (try apply Aok; assumption). rewrite (H1 i Hi Eo), Eo'.
    rewrite andb_false_r. reflexivity.
  - rewrite AA by (try apply Bok; assumption). rewrite (H2 i Hi Eo'), Eo.
    rewrite andb_false_r. reflexivity.
  - reflexivity.
Qed.

(** [A A^dagger] and [A^dagger A] for a shift [A]. *)
Lemma shift_products : forall A n s ok,
  isshift A n s ok ->
  isdiag (matmul A (dagger A)) n (fun i => if ok i then C1 else C0) /\
  isdiag (matmul (dagger A) A) n
         (fun i => if Nat.leb s i && ok (i - s)%nat then C1 else C0).
Proof.
  intros A n s ok HA. pose proof HA as (Ar & Ac & Aok & AA). split.
  - split; [cbn; congruence|]. split; [cbn; congruence|].
    intros i j Hi Hj.
    rewrite (matmul_shift_l _ _ _ _ _ _ _ HA) by (cbn; congruence || assumption).
    destruct (ok i) eqn:Eo.
    + rewrite ment_dagger, AA by (try apply Aok; assumption).
      destruct (Nat.eqb_spec (i + s) (j + s)) as [E|E];
        destruct (Nat.eqb_spec i j) as [<-|]; try lia.
      * rewrite Eo. Csolve.
      * cbn [andb]. Csolve.
    + destruct (Nat.eqb i j); reflexivity.
  - split; [cbn; congruence|]. split; [cbn; congruence|].
    intros i j Hi Hj.
    rewrite (matmul_shiftT_l _ _ n s ok) by
      (try (cbn; congruence); try assumption;
       intros k Hk; rewrite ment_dagger, AA by assumption;
       destruct (Nat.eqb (i) (k + s) && ok k); Csolve).
    destruct (Nat.leb_spec s i) as [Hs|Hs]; cbn [andb].
    + destruct (ok (i - s)%nat) eqn:Eo.
      * rewrite AA by lia. rewrite Eo.
        destruct (Nat.eqb_spec j (i - s + s)) as [E|E];
          destruct (Nat.eqb_spec i j); try lia; reflexivity.
      * destruct (Nat.eqb i j); reflexivity.
    + destruct (Nat.eqb i j); reflexivity.
Qed.

Lemma csum_add : forall n f g,
  csum n (fun k => Cadd (f k) (g k)) = Cadd (csum n f) (csum n g).
Proof. induction n as [|n IH]; intros f g; simpl; [Csolve|]. rewrite IH. ring. Qed.

Lemma csum_scale : forall n c f,
  csum n (fun k => Cmul c (f k)) = Cmul c (csum n f).
Proof. induction n as [|n IH]; intros c f; simpl; [Csolve|]. rewrite IH. ring. Qed.

Lemma half_eq : 0.5 = / 2.
Proof. lra. Qed.

(** [cos_op] and [sin_op] built from a shift [P] as in
    [cos_phi_1_operator] and [sin_phi_1_operator]. *)
Lemma cos_sin_shift : forall P n s ok,
  isshift P n s ok ->
  let c := madd (mscale (RtoC 0.5) P) (transpose (mscale (RtoC 0.5) P)) in
  let sn := madd (mscale (Cmul (Copp Ci) (RtoC 0.5)) P)
                 (transpose (mconj (mscale (Cmul (Copp Ci) (RtoC 0.5)) P))) in
  (meq c (transpose c) /\ meq c (dagger c) /\ meq sn (dagger sn)) /\
  isdiag (madd (matmul c c) (matmul sn sn)) n
         (fun i => RtoC ((b2R (ok i) + b2R (Nat.leb s i && ok (i - s)%nat)) / 2)).
Proof.
  intros P n s ok (Ar & Ac & Aok & AA). cbv zeta. split; [split; [|split]|].
  - split; [cbn; congruence|]. split; [cbn; congruence|].
    intros i j Hi Hj. cbn [madd mscale transpose ment mrows mcols] in *. Csolve.
  - split; [cbn; congruence|]. split; [cbn; congruence|].
    intros i j Hi Hj. cbn [madd mscale transpose dagger ment mrows mcols] in *.
    rewrite !AA by congruence.
    destruct (Nat.eqb j (i + s) && ok i), (Nat.eqb i (j + s) && ok j); Csolve.
  - split; [cbn; congruence|]. split; [cbn; congruence|].
    intros i j Hi Hj. cbn [madd mscale transpose dagger mconj ment mrows mcols] in *. Csolve.
  - split; [cbn; congruence|]. split; [cbn; congruence|].
    intros i j Hi Hj. cbn [madd mscale transpose mconj matmul ment mrows mcols]. rewrite Ac.
    rewrite <- csum_add.
    rewrite (csum_ext n _ (fun k => Cmul (RtoC (/ 2))
      (Cadd (Cmul (ment P i k) (ment P j k)) (Cmul (ment P k i) (ment P k j))))).
    2: { intros k Hk. rewrite !AA by congruence. rewrite half_eq.
         destruct (Nat.eqb k (i + s) && ok i), (Nat.eqb i (k + s) && ok k),
                  (Nat.eqb j (k + s) && ok k), (Nat.eqb k (j + s) && ok j);
         apply C_ext; unfold Cadd, Cmul, Csub, Copp, Cconj, RtoC, C0, C1, Ci;
         simpl; field. }
    rewrite csum_scale, csum_add.
    rewrite (csum_ext n (fun k => Cmul (ment P i k) (ment P j k))
               (fun k => if Nat.eqb (i + s) k then
                           (if Nat.eqb j i && ok i then C1 else C0) else C0)).
    2: { intros k Hk. rewrite !AA by congruence.
         destruct (Nat.eqb_spec j i) as [->|Hji];
           destruct (Nat.eqb_spec k (i + s)), (Nat.eqb_spec (i + s) k); try lia;
           cbn [andb]; try (destruct (ok i); Csolve).
         destruct (Nat.eqb_spec k (j + s)); [lia|]. cbn [andb].
         destruct (ok i); Csolve. }
    rewrite csum_delta_gen.
    assert (Hok : ok i = true -> (i + s < n)%nat) by (apply Aok; exact Hi).
    destruct (Nat.leb_spec s i) as [Hs|Hs]; cbn [andb].
    + rewrite (csum_ext n (fun k => Cmul (ment P k i) (ment P k j))
                 (fun k => if Nat.eqb (i - s) k then
                             (if Nat.eqb j i && ok k then C1 else C0) else C0)).
      2: { intros k Hk. rewrite !AA by congruence.
           destruct (Nat.eqb_spec j i) as [->|Hji];
             destruct (Nat.eqb_spec i (k + s)), (Nat.eqb_spec (i - s) k); try lia;
             cbn [andb]; try (destruct (ok k); Csolve).
           destruct (Nat.eqb_spec j (k + s)); [lia|]. cbn [andb].
           destruct (ok k); Csolve. }
      rewrite csum_delta_gen.
      destruct (Nat.ltb_spec (i - s) n); [|lia].
      rewrite (Nat.eqb_sym j i).
      destruct (ok i) eqn:Eo.
      * destruct (Nat.ltb_spec (i + s) n); [|specialize (Hok eq_refl); lia].
        destruct (Nat.eqb i j), (ok (i - s)%nat); unfold b2R; cbn [andb];
          apply C_ext; simpl; field.
      * destruct (Nat.ltb (i + s) n), (Nat.eqb i j), (ok (i - s)%nat);
          unfold b2R; cbn [andb]; apply C_ext; simpl; field.
    + rewrite (csum_zero n (fun k => Cmul (ment P k i) (ment P k j))).
      2: { intros k Hk. rewrite !AA by congruence.
           destruct (Nat.eqb_spec i (k + s)); [lia|]. cbn [andb]. Csolve. }
      rewrite (Nat.eqb_sym j i).
      destruct (ok i) eqn:Eo.
      * destruct (Nat.ltb_spec (i + s) n); [|specialize (Hok eq_refl); lia].
        destruct (Nat.eqb i j); unfold b2R; cbn [andb]; apply C_ext; simpl; field.
      * destruct (Nat.ltb (i + s) n), (Nat.eqb i j);
          unfold b2R; cbn [andb]; apply C_ext; simpl; field.
Qed.

(** The boundary conditions of the composite shifts, in charge terms. *)
Lemma shift1_back : forall d a, (0 < d)%nat -> (a < d * d)%nat ->
  (Nat.leb d a && Nat.ltb ((a - d) / d) (d - 1))%bool = Nat.ltb 0 (a / d).
Proof.
  intros d a Hd Ha. pose proof (div_lt_of_lt_mul _ _ _ Ha) as Hq.
  destruct (Nat.leb_spec d a) as [H|H]; cbn [andb].
  - destruct (div_mod_add_mul d (a - d) 1 ltac:(lia)) as [Eq _].
    replace (a - d + 1 * d)%nat with a in Eq by lia.
    destruct (Nat.ltb_spec ((a - d) / d) (d - 1)), (Nat.ltb_spec 0 (a / d));
      try reflexivity; lia.
  - rewrite Nat.div_small by lia. reflexivity.
Qed.

Lemma shift2_back : forall d a, (0 < d)%nat ->
  (Nat.leb 1 a && Nat.ltb ((a - 1) mod d) (d - 1))%bool = Nat.ltb 0 (a mod d).
Proof.
  intros d a Hd.
  pose proof (Nat.div_mod_eq a d) as Ea.
  pose proof (Nat.mod_upper_bound a d ltac:(lia)) as Br.
  destruct (Nat.leb_spec 1 a) as [H|H]; cbn [andb].
  - destruct (Nat.eq_dec (a mod d) 0) as [Hr|Hr].
    + assert (Hq : (1 <= a / d)%nat) by nia.
      assert (E : ((a - 1) mod d = d - 1)%nat).
      { symmetry. apply (Nat.mod_unique _ _ (a / d - 1)); [lia|].
        rewrite Hr in Ea. rewrite Nat.mul_sub_distr_l. nia. }
      rewrite E, Hr. destruct (Nat.ltb_spec (d - 1) (d - 1)); [lia|reflexivity].
    + assert (E : ((a - 1) mod d = a mod d - 1)%nat).
      { symmetry. apply (Nat.mod_unique _ _ (a / d)); lia. }
      rewrite E. destruct (Nat.ltb_spec (a mod d - 1) (d - 1)), (Nat.ltb_spec 0 (a mod d));
        try reflexivity; lia.
  - replace a with 0%nat by lia. rewrite Nat.Div0.mod_0_l. reflexivity.
Qed.

Lemma d_minus_1 : forall self, (2 * ncut self = (2 * ncut self + 1) - 1)%nat.
Proof. intros self. lia. Qed.

Lemma exp_i_phi_cross_entry : forall self a b,
  let d := (2 * ncut self + 1)%nat in
  (a < d * d)%nat -> (b < d * d)%nat ->
  ment (matmul (exp_i_phi_1_operator self) (dagger (exp_i_phi_2_operator self))) a b =
  Cmul (RtoC (eval self (a / d) (b / d))) (RtoC (eval self (b mod d) (a mod d))).
Proof.
  intros self a b d Ha Hb.
  pose proof (exp_i_phi_1_shift self) as H1. pose proof (exp_i_phi_2_shift self) as H2.
  cbv zeta in H1, H2. fold d in H1, H2.
  pose proof H2 as (R2 & C2 & O2 & A2).
  pose proof H1 as (R1 & C1' & O1 & A1).
  assert (Rd : mrows (dagger (exp_i_phi_2_operator self)) = (d * d)%nat) by (cbn; exact C2).
  rewrite (matmul_shift_l _ _ _ _ _ a b H1 Rd Ha).
  assert (Hd : (0 < d)%nat) by (unfold d; lia).
  unfold eval.
  destruct (Nat.ltb (a / d) (2 * ncut self)) eqn:E1.
  - rewrite ment_dagger, A2 by (try apply O1; assumption).
    destruct (Nat.ltb (b mod d) (2 * ncut self)) eqn:E2; cbn [andb].
    + apply Nat.ltb_lt in E2.
      destruct (div_mod_add_small d b 1 ltac:(unfold d in *; lia)) as [Qb Rb].
      destruct (div_mod_add_mul d a 1 ltac:(lia)) as [Qa Ra].
      rewrite Nat.mul_1_l in Qa, Ra.
      rewrite <- (div_mod_eqb d (a + d) (b + 1) ltac:(lia)), Qa, Ra, Qb, Rb.
      destruct (Nat.eqb_spec (a / d + 1) (b / d)), (Nat.eqb_spec (a mod d) (b mod d + 1)),
               (Nat.eqb_spec (b / d) (S (a / d))), (Nat.eqb_spec (a mod d) (S (b mod d)));
        cbn [andb]; try lia; Csolve.
    + rewrite !andb_false_r. Csolve.
  - rewrite !andb_false_r. Csolve.
Qed.

(** Closes a complex identity whose real and imaginary parts need [field]. *)
Ltac Cfield :=
  apply C_ext; unfold Cadd, Cmul, Csub, Copp, Cconj, RtoC, C0, C1, Ci;
  simpl; field.

(** ** The phase operators: properties *)


(** The operators of different modes commute: [n_1] with
    [exp_i_phi_2_operator], [n_2] with [exp_i_phi_1_operator], and the two
    phase operators with each other. *)
Theorem phase_operators_cross_commute : forall self : FluxQubit,
  meq (matmul (n_1_operator self) (exp_i_phi_2_operator self))
      (matmul (exp_i_phi_2_operator self) (n_1_operator self)) /\
  meq (matmul (n_2_operator self) (exp_i_phi_1_operator self))
      (matmul (exp_i_phi_1_operator self) (n_2_operator self)) /\
  meq (matmul (exp_i_phi_1_operator self) (exp_i_phi_2_operator self))
      (matmul (exp_i_phi_2_operator self) (exp_i_phi_1_operator self)).
Proof.
  intros self.
  pose proof (exp_i_phi_1_shift self) as H1. pose proof (exp_i_phi_2_shift self) as H2.
  pose proof (n_1_diag self) as N1. pose proof (n_2_diag self) as N2.
  cbv zeta in H1, H2, N1, N2.
  assert (Hd : (2 * ncut self + 1 <> 0)%nat) by lia.
  split; [|split].
  - eapply diag_shift_commute; [exact N1|exact H2|].
    intros i _ Hok. apply Nat.ltb_lt in Hok.
    destruct (div_mod_add_small (2 * ncut self + 1) i 1 ltac:(lia)) as [Eq _].
    rewrite Eq. reflexivity.
  - eapply diag_shift_commute; [exact N2|exact H1|].
    intros i _ _. destruct (div_mod_add_mul _ i 1 Hd) as [_ Er].
    rewrite Nat.mul_1_l in Er. rewrite Er. reflexivity.
  - eapply shift_shift_commute; [exact H1|exact H2| |].
    + intros i _ _. destruct (div_mod_add_mul _ i 1 Hd) as [_ Er].
      rewrite Nat.mul_1_l in Er. rewrite Er. reflexivity.
    + intros i _ Hok. apply Nat.ltb_lt in Hok.
      destruct (div_mod_add_small (2 * ncut self + 1) i 1 ltac:(lia)) as [Eq _].
      rewrite Eq. reflexivity.
Qed.

(** The charge cutoff makes the phase operators non-unitary:
    [E_k E_k^dagger] is the projector on the states whose mode-[k] charge is
    below [ncut], and [E_k^dagger E_k] the one on the states whose mode-[k]
    charge is above [-ncut]. *)
Theorem exp_i_phi_truncation : forall self : FluxQubit,
  let d := (2 * ncut self + 1)%nat in
  isdiag (matmul (exp_i_phi_1_operator self) (dagger (exp_i_phi_1_operator self))) (d * d)
         (fun a => if Nat.ltb (a / d) (2 * ncut self) then C1 else C0) /\
  isdiag (matmul (dagger (exp_i_phi_1_operator self)) (exp_i_phi_1_operator self)) (d * d)
         (fun a => if Nat.ltb 0 (a / d) then C1 else C0) /\
  isdiag (matmul (exp_i_phi_2_operator self) (dagger (exp_i_phi_2_operator self))) (d * d)
         (fun a => if Nat.ltb (a mod d) (2 * ncut self) then C1 else C0) /\
  isdiag (matmul (dagger (exp_i_phi_2_operator self)) (exp_i_phi_2_operator self)) (d * d)
         (fun a => if Nat.ltb 0 (a mod d) then C1 else C0).
Proof.
  intros self d.
  pose proof (exp_i_phi_1_shift self) as H1. pose proof (exp_i_phi_2_shift self) as H2.
  cbv zeta in H1, H2. fold d in H1, H2.
  destruct (shift_products _ _ _ _ H1) as [P1 Q1].
  destruct (shift_products _ _ _ _ H2) as [P2 Q2].
  assert (Hd : (0 < d)%nat) by (unfold d; lia).
  rewrite (d_minus_1 self) in Q1, Q2. fold d in Q1, Q2.
  split; [exact P1|]. split; [|split; [exact P2|]].
  - eapply isdiag_ext; [exact Q1|]. intros a Ha. cbv beta. rewrite shift1_back by assumption.
    reflexivity.
  - eapply isdiag_ext; [exact Q2|]. intros a Ha. cbv beta. rewrite shift2_back by assumption.
    reflexivity.
Qed.


(** [cos^2 + sin^2] of each phase is diagonal, with [1] on the states whose
    mode charge is strictly inside [-ncut, ncut] and [1/2] on the two
    boundary charges ([0] when [ncut = 0]). *)
Theorem cos_sin_phi_square_sum : forall self : FluxQubit,
  let d := (2 * ncut self + 1)%nat in
  isdiag (madd (matmul (cos_phi_1_operator self) (cos_phi_1_operator self))
               (matmul (sin_phi_1_operator self) (sin_phi_1_operator self))) (d * d)
         (fun a => RtoC ((b2R (Nat.ltb (a / d) (2 * ncut self)) + b2R (Nat.ltb 0 (a / d))) / 2)) /\
  isdiag (madd (matmul (cos_phi_2_operator self) (cos_phi_2_operator self))
               (matmul (sin_phi_2_operator self) (sin_phi_2_operator self))) (d * d)
         (fun a => RtoC ((b2R (Nat.ltb (a mod d) (2 * ncut self)) + b2R (Nat.ltb 0 (a mod d))) / 2)).
Proof.
  intros self d.
  pose proof (exp_i_phi_1_shift self) as H1. pose proof (exp_i_phi_2_shift self) as H2.
  cbv zeta in H1, H2. fold d in H1, H2.
  assert (Hd : (0 < d)%nat) by (unfold d; lia).
  unfold cos_phi_1_operator, sin_phi_1_operator, cos_phi_2_operator, sin_phi_2_operator.
  cbv zeta.
  split.
  - eapply isdiag_ext; [exact (proj2 (cos_sin_shift _ _ _ _ H1))|].
    intros a Ha. cbv beta. rewrite (d_minus_1 self). fold d.
    rewrite shift1_back by assumption. reflexivity.
  - eapply isdiag_ext; [exact (proj2 (cos_sin_shift _ _ _ _ H2))|].
    intros a Ha. cbv beta. rewrite (d_minus_1 self). fold d.
    rewrite shift2_back by assumption. reflexivity.
Qed.

(** [potentialmat()] is [-EJ1 cos_phi_1 - EJ2 cos_phi_2] plus the
    [EJ3] junction term [-EJ3/2 (e^(i 2 pi flux) M + e^(-i 2 pi flux) M^dagger)]
    with [M = exp_i_phi_1 exp_i_phi_2^dagger]. *)
Theorem potentialmat_cos_form : forall self : FluxQubit,
  let M := matmul (exp_i_phi_1_operator self) (dagger (exp_i_phi_2_operator self)) in
  let th := 2 * PI * flux self in
  meq (potentialmat self)
      (madd (madd (madd (mscale (RtoC (- EJ1 self)) (cos_phi_1_operator self))
                        (mscale (RtoC (- EJ2 self)) (cos_phi_2_operator self)))
                  (mscale (Cmul (RtoC (- (EJ3 self / 2))) (Cexp (mkC 0 th))) M))
            (mscale (Cmul (RtoC (- (EJ3 self / 2))) (Cexp (mkC 0 (- th)))) (dagger M))).
Proof.
  intros self M th.
  destruct (potentialmat_shape self) as [Pr Pc].
  split.
  { rewrite Pr. unfold cos_phi_1_operator, exp_i_phi_1_operator. cbv zeta.
    entries self. reflexivity. }
  split.
  { rewrite Pc. unfold cos_phi_1_operator, exp_i_phi_1_operator. cbv zeta.
    entries self. reflexivity. }
  intros a b Ha Hb. rewrite Pr in Ha. rewrite Pc in Hb.
  rewrite !ment_madd, !ment_mscale, ment_dagger. unfold M.
  rewrite !exp_i_phi_cross_entry by assumption.
  unfold potentialmat, cos_phi_1_operator, cos_phi_2_operator, exp_i_phi_1_operator,
    exp_i_phi_2_operator, th.
  cbv zeta. rewrite phase_arg_eq, phase_arg_neg_eq.
  entries self. rewrite !half_eq.
  repeat match goal with
         | |- context [Nat.eqb ?a ?b] => destruct (Nat.eqb_spec a b)
         end;
  first [exfalso; congruence | Cfield].
Qed.

(** ** The potential function and flux reversal *)

Lemma cos_sin_2PI_Z : forall (x : R) (k : Z),
  cos (x + 2 * PI * IZR k) = cos x /\ sin (x + 2 * PI * IZR k) = sin x.
Proof.
  intros x k. destruct k as [|p|p].
  - rewrite Rmult_0_r, Rplus_0_r. split; reflexivity.
  - assert (E : IZR (Z.pos p) = INR (Pos.to_nat p))
      by (rewrite INR_IZR_INZ, positive_nat_Z; reflexivity).
    rewrite E. replace (x + 2 * PI * INR (Pos.to_nat p))
      with (x + 2 * INR (Pos.to_nat p) * PI) by ring.
    split; [apply cos_period | apply sin_period].
  - assert (E : IZR (Z.neg p) = - INR (Pos.to_nat p))
      by (rewrite INR_IZR_INZ, positive_nat_Z; reflexivity).
    rewrite E. set (y := x + 2 * PI * - INR (Pos.to_nat p)).
    pose proof (cos_period y (Pos.to_nat p)) as Hc.
    pose proof (sin_period y (Pos.to_nat p)) as Hs.
    replace (y + 2 * INR (Pos.to_nat p) * PI) with x in Hc, Hs by (unfold y; ring).
    split; symmetry; assumption.
Qed.

Lemma cos_2PI_Z : forall (x : R) (k : Z), cos (x + 2 * PI * IZR k) = cos x.
Proof. intros x k. exact (proj1 (cos_sin_2PI_Z x k)). Qed.

Lemma with_flux_exp_i_phi : forall self f,
  _exp_i_phi_operator (with_flux self f) = _exp_i_phi_operator self.
Proof. reflexivity. Qed.

Lemma with_flux_identity : forall self f,
  _identity (with_flux self f) = _identity self.
Proof. reflexivity. Qed.

(** [potential] is [2 pi]-periodic in [phi1] and in [phi2], and
    [1]-periodic in [flux] (integer shifts). *)
Theorem potential_2PI_periodic : forall (self : FluxQubit) (phi1 phi2 : R) (k1 k2 k : Z),
  potential self (phi1 + 2 * PI * IZR k1) (phi2 + 2 * PI * IZR k2) = potential self phi1 phi2 /\
  potential (with_flux self (flux self + IZR k)) phi1 phi2 = potential self phi1 phi2.
Proof.
  intros self phi1 phi2 k1 k2 k. unfold potential; cbn [flux EJ1 EJ2 EJ3 with_flux].
  rewrite !cos_2PI_Z. split.
  - replace (2 * PI * flux self + (phi1 + 2 * PI * IZR k1) - (phi2 + 2 * PI * IZR k2))
      with (2 * PI * flux self + phi1 - phi2 + 2 * PI * IZR (k1 - k2))
      by (rewrite minus_IZR; ring).
    rewrite cos_2PI_Z. reflexivity.
  - replace (2 * PI * (flux self + IZR k) + phi1 - phi2)
      with (2 * PI * flux self + phi1 - phi2 + 2 * PI * IZR k) by ring.
    rewrite cos_2PI_Z. reflexivity.
Qed.

(** With nonnegative Josephson energies, [potential] lies in
    [-(EJ1 + EJ2 + EJ3), EJ1 + EJ2 + EJ3]. *)
Theorem potential_bounds : forall (self : FluxQubit) (phi1 phi2 : R),
  0 <= EJ1 self -> 0 <= EJ2 self -> 0 <= EJ3 self ->
  - (EJ1 self + EJ2 self + EJ3 self) <= potential self phi1 phi2 <=
  EJ1 self + EJ2 self + EJ3 self.
Proof.
  intros self phi1 phi2 H1 H2 H3. unfold potential.
  pose proof (COS_bound phi1) as [A1 B1].
  pose proof (COS_bound phi2) as [A2 B2].
  pose proof (COS_bound (2 * PI * flux self + phi1 - phi2)) as [A3 B3].
  split; nra.
Qed.

(** At integer [flux] and with nonnegative Josephson energies, the origin
    [phi1 = phi2 = 0] is a global minimum of [potential], of value
    [-(EJ1 + EJ2 + EJ3)]. *)
Theorem potential_integer_flux_minimum : forall (self : FluxQubit) (k : Z) (phi1 phi2 : R),
  0 <= EJ1 self -> 0 <= EJ2 self -> 0 <= EJ3 self -> flux self = IZR k ->
  potential self 0 0 = - (EJ1 self + EJ2 self + EJ3 self) /\
  potential self 0 0 <= potential self phi1 phi2.
Proof.
  intros self k phi1 phi2 H1 H2 H3 Hf.
  assert (E : potential self 0 0 = - (EJ1 self + EJ2 self + EJ3 self)).
  { unfold potential. rewrite Hf.
    replace (2 * PI * IZR k + 0 - 0) with (0 + 2 * PI * IZR k) by ring.
    rewrite cos_2PI_Z, cos_0. ring. }
  split; [exact E|]. rewrite E.
  unfold potential.
  pose proof (COS_bound phi1) as [A1 B1].
  pose proof (COS_bound phi2) as [A2 B2].
  pose proof (COS_bound (2 * PI * flux self + phi1 - phi2)) as [A3 B3].
  nra.
Qed.

(** Reversing [flux] and both phases leaves [potential] unchanged. *)
Theorem potential_flux_reversal : forall (self : FluxQubit) (phi1 phi2 : R),
  potential (with_flux self (- flux self)) (- phi1) (- phi2) = potential self phi1 phi2.
Proof.
  intros self phi1 phi2. unfold potential; cbn [flux EJ1 EJ2 EJ3 with_flux].
  rewrite !cos_neg.
  replace (2 * PI * - flux self + - phi1 - - phi2)
    with (- (2 * PI * flux self + phi1 - phi2)) by ring.
  rewrite cos_neg. reflexivity.
Qed.

(** When [EJ1 = EJ2], [potential] is symmetric under
    [(phi1, phi2) -> (-phi2, -phi1)]. *)
Theorem potential_exchange_symmetry : forall (self : FluxQubit) (phi1 phi2 : R),
  EJ1 self = EJ2 self ->
  potential self (- phi2) (- phi1) = potential self phi1 phi2.
Proof.
  intros self phi1 phi2 E. unfold potential.
  rewrite !cos_neg, E.
  replace (2 * PI * flux self + - phi2 - - phi1) with (2 * PI * flux self + phi1 - phi2)
    by ring.
  ring.
Qed.

(** Reversing [flux] turns [potentialmat()] into its complex conjugate. *)
Theorem potentialmat_flux_reversal : forall self : FluxQubit,
  meq (potentialmat (with_flux self (- flux self))) (mconj (potentialmat self)).
Proof.
  intros self.
  destruct (potentialmat_shape self) as [Pr Pc].
  destruct (potentialmat_shape (with_flux self (- flux self))) as [Qr Qc].
  cbn [ncut with_flux] in Qr, Qc.
  split; [unfold mconj; cbn [mrows]; congruence|].
  split; [unfold mconj; cbn [mcols]; congruence|].
  intros a b _ _. unfold mconj; cbn [ment].
  unfold potentialmat; cbv zeta.
  rewrite !with_flux_exp_i_phi, !with_flux_identity, !phase_arg_eq, !phase_arg_neg_eq.
  cbn [flux EJ1 EJ2 EJ3 with_flux].
  replace (2 * PI * - flux self) with (- (2 * PI * flux self)) by ring.
  rewrite Ropp_involutive, <- Cconj_Cexp_phase.
  replace (Cexp {| re := 0; im := 2 * PI * flux self |})
    with (Cconj (Cexp {| re := 0; im := - (2 * PI * flux self) |}))
    by (rewrite Cconj_Cexp_phase, Ropp_involutive; reflexivity).
  entries self. split_deltas.
Qed.

(** ** The wavefunction amplitudes *)

Lemma nth_arange_Z : forall (a b : Z) (k : nat), (k < Z.to_nat (b - a))%nat ->
  nth k (arange a b) 0%Z = (a + Z.of_nat k)%Z.
Proof.
  intros a b k Hk. unfold arange.
  rewrite (nth_indep _ 0%Z (a + Z.of_nat 0)%Z)
    by (rewrite length_map, length_seq; exact Hk).
  pose proof (map_nth (fun k : nat => (a + Z.of_nat k)%Z) (seq 0 (Z.to_nat (b - a))) 0%nat k)
    as H.
  cbv beta in H. rewrite H, seq_nth by exact Hk. reflexivity.
Qed.

Lemma Cexp_i_real : forall y : R, Cexp (Cmul Ci (RtoC y)) = mkC (cos y) (sin y).
Proof.
  intros y. unfold Cexp, Cmul, Ci, RtoC; cbn [re im].
  replace (0 * y - 1 * 0) with 0 by ring. replace (0 * 0 + 1 * y) with y by ring.
  rewrite exp_0. f_equal; ring.
Qed.

Lemma Cdiv_real : forall (z : C) (r : R), r <> 0 -> Cdiv z (RtoC r) = Cmul z (RtoC (/ r)).
Proof.
  intros z r Hr. unfold Cdiv, Cmul, RtoC; cbn [re im]. apply C_ext; cbn [re im]; field; exact Hr.
Qed.

Lemma sqrt2pi_pos : 0 < Rpower (2 * PI) 0.5.
Proof. unfold Rpower. apply exp_pos. Qed.

Lemma sqrt2pi_sq : Rpower (2 * PI) 0.5 * Rpower (2 * PI) 0.5 = 2 * PI.
Proof.
  rewrite <- Rpower_plus. replace (0.5 + 0.5) with 1 by lra.
  apply Rpower_1. pose proof PI_RGT_0. lra.
Qed.

Lemma csum_mul_r : forall n f c, Cmul (csum n f) c = csum n (fun k => Cmul (f k) c).
Proof.
  induction n as [|n IH]; intros f c; cbn [csum].
  - Csolve.
  - rewrite <- IH. Csolve.
Qed.

(** The entries of [wavefunc_amplitudes] as the double sum computed by the
    two matrix products. *)
Lemma wavefunc_entry : forall self evecs which phi_vec p q,
  let d := (2 * ncut self + 1)%nat in
  let a := fun (x : R) (k : nat) =>
    Cdiv (Cexp (Cmul Ci (RtoC (x * IZR (Z.of_nat k - Z.of_nat (ncut self))))))
         (RtoC (Rpower (2 * PI) 0.5)) in
  ment (wavefunc_amplitudes self evecs which phi_vec) p q =
  csum d (fun j => csum d (fun i =>
    Cmul (Cmul (a (nth p phi_vec 0) i) (ment evecs (i * d + j) which)) (a (nth q phi_vec 0) j))).
Proof.
  intros self evecs which phi_vec p q d a.
  unfold wavefunc_amplitudes, state_amplitudes, reshape, column; cbv zeta.
  cbn [ment mcols mrows matmul transpose].
  rewrite length_arange_ncut. fold d.
  apply csum_ext. intros j Hj. rewrite csum_mul_r. apply csum_ext. intros i Hi.
  unfold a.
  rewrite !nth_arange_Z
    by (replace (Z.of_nat (ncut self) + 1 - - Z.of_nat (ncut self))%Z
          with (Z.of_nat d) by (unfold d; lia); rewrite Nat2Z.id; exact Hi || exact Hj).
  replace (- Z.of_nat (ncut self) + Z.of_nat i)%Z with (Z.of_nat i - Z.of_nat (ncut self))%Z
    by lia.
  replace (- Z.of_nat (ncut self) + Z.of_nat j)%Z with (Z.of_nat j - Z.of_nat (ncut self))%Z
    by lia.
  reflexivity.
Qed.

Lemma nth_map_lt : forall (f : R -> R) (l : list R) (p : nat), (p < length l)%nat ->
  nth p (map f l) 0 = f (nth p l 0).
Proof.
  intros f l p Hp. rewrite (nth_indep _ 0 (f 0)) by (rewrite length_map; exact Hp).
  apply map_nth.
Qed.

Lemma wavefunc_shape : forall self evecs which phi_vec,
  mrows (wavefunc_amplitudes self evecs which phi_vec) = length phi_vec /\
  mcols (wavefunc_amplitudes self evecs which phi_vec) = length phi_vec.
Proof. intros. split; reflexivity. Qed.

(** The amplitude of [wavefunction] at grid points [(phi_p, phi_q)] is
    [1/(2 pi)] times the sum over the charge states [(n1, n2)] of the
    amplitude [evecs[n1 * dim + n2, which]] times [e^(i (phi_p n1 + phi_q n2))]. *)
Theorem wavefunction_fourier_sum : forall (self : FluxQubit) (evecs : mat) (which : nat)
    (phi_vec : list R) (p q : nat),
  let d := (2 * ncut self + 1)%nat in
  let nv := fun i : nat => IZR (Z.of_nat i - Z.of_nat (ncut self)) in
  ment (wavefunc_amplitudes self evecs which phi_vec) p q =
  Cmul (RtoC (/ (2 * PI)))
       (csum d (fun j => csum d (fun i =>
          Cmul (ment evecs (i * d + j) which)
               (Cexp (mkC 0 (nth p phi_vec 0 * nv i + nth q phi_vec 0 * nv j)))))).
Proof.
  intros self evecs which phi_vec p q d nv.
  rewrite wavefunc_entry. cbv zeta. fold d.
  rewrite <- csum_scale. apply csum_ext. intros j _.
  rewrite <- csum_scale. apply csum_ext. intros i _.
  pose proof sqrt2pi_pos as Hr.
  rewrite !Cexp_i_real, !Cdiv_real by lra.
  unfold nv, Cexp; cbn [re im]. rewrite exp_0, cos_plus, sin_plus.
  replace (/ (2 * PI)) with (/ Rpower (2 * PI) 0.5 * / Rpower (2 * PI) 0.5)
    by (rewrite <- Rinv_mult, sqrt2pi_sq; reflexivity).
  Csolve.
Qed.

(** Shifting every grid point by [2 pi k] leaves the wavefunction
    amplitudes unchanged. *)
Theorem wavefunction_2PI_periodic : forall (self : FluxQubit) (evecs : mat) (which : nat)
    (phi_vec : list R) (k : Z),
  meq (wavefunc_amplitudes self evecs which (map (fun x => x + 2 * PI * IZR k) phi_vec))
      (wavefunc_amplitudes self evecs which phi_vec).
Proof.
  intros self evecs which phi_vec k.
  destruct (wavefunc_shape self evecs which (map (fun x => x + 2 * PI * IZR k) phi_vec))
    as [Sr Sc].
  destruct (wavefunc_shape self evecs which phi_vec) as [Tr Tc].
  rewrite length_map in Sr, Sc.
  split; [congruence|]. split; [congruence|].
  intros p q Hp Hq. rewrite Sr in Hp. rewrite Sc in Hq.
  rewrite !wavefunc_entry. cbv zeta.
  rewrite !nth_map_lt by assumption.
  assert (Ha : forall (x : R) (z : Z),
    Cexp (Cmul Ci (RtoC ((x + 2 * PI * IZR k) * IZR z))) = Cexp (Cmul Ci (RtoC (x * IZR z)))).
  { intros x z. rewrite !Cexp_i_real.
    replace ((x + 2 * PI * IZR k) * IZR z) with (x * IZR z + 2 * PI * IZR (k * z))
      by (rewrite mult_IZR; ring).
    destruct (cos_sin_2PI_Z (x * IZR z) (k * z)) as [Ec Es]. rewrite Ec, Es. reflexivity. }
  apply csum_ext. intros j _. apply csum_ext. intros i _.
  rewrite !Ha. reflexivity.
Qed.

(** ** Witnesses *)

Lemma potential_bounds_witness :
  (0 <= EJ1 sample_qubit /\ 0 <= EJ2 sample_qubit /\ 0 <= EJ3 sample_qubit) /\
  - (EJ1 sample_qubit + EJ2 sample_qubit + EJ3 sample_qubit) <= potential sample_qubit 0 1 <=
  EJ1 sample_qubit + EJ2 sample_qubit + EJ3 sample_qubit.
Proof.
  assert (H1 : 0 <= EJ1 sample_qubit) by (cbn; lra).
  assert (H2 : 0 <= EJ2 sample_qubit) by (cbn; lra).
  assert (H3 : 0 <= EJ3 sample_qubit) by (cbn; lra).
  split; [auto|]. exact (potential_bounds sample_qubit 0 1 H1 H2 H3).
Defined.

Lemma potential_integer_flux_minimum_witness :
  (0 <= EJ1 (with_flux sample_qubit 0) /\ 0 <= EJ2 (with_flux sample_qubit 0) /\
   0 <= EJ3 (with_flux sample_qubit 0) /\ flux (with_flux sample_qubit 0) = IZR 0) /\
  potential (with_flux sample_qubit 0) 0 0 =
    - (EJ1 (with_flux sample_qubit 0) + EJ2 (with_flux sample_qubit 0)
       + EJ3 (with_flux sample_qubit 0)) /\
  potential (with_flux sample_qubit 0) 0 0 <= potential (with_flux sample_qubit 0) 1 2.
Proof.
  assert (H1 : 0 <= EJ1 (with_flux sample_qubit 0)) by (cbn; lra).
  assert (H2 : 0 <= EJ2 (with_flux sample_qubit 0)) by (cbn; lra).
  assert (H3 : 0 <= EJ3 (with_flux sample_qubit 0)) by (cbn; lra).
  assert (Hf : flux (with_flux sample_qubit 0) = IZR 0) by reflexivity.
  split; [auto|].
  exact (potential_integer_flux_minimum (with_flux sample_qubit 0) 0 1 2 H1 H2 H3 Hf).
Defined.

Lemma potential_exchange_symmetry_witness :
  EJ1 sample_qubit = EJ2 sample_qubit /\
  potential sample_qubit (- 2) (- 1) = potential sample_qubit 1 2.
Proof.
  assert (E : EJ1 sample_qubit = EJ2 sample_qubit) by reflexivity.
  split; [exact E|]. exact (potential_exchange_symmetry sample_qubit 1 2 E).
Defined.
